(** * EntityCorrect: synonym and phonetic entity correction

    A shallow embedding of [EntityCorrect.py]: dictionary loading
    ([_get_synonym]), automaton construction ([_build_actree]), offset
    computation ([get_index]) and the correction pipeline ([run]), with the
    Python string operations they rely on. *)

From Stdlib Require Import ZArith Ascii String.
From stdpp Require Import base option list gmap sorting.

Local Open Scope Z_scope.

(** ** Python values *)

(** A Python [str] is a sequence of Unicode code points. *)
Abbreviation char := N (only parsing).
Abbreviation str := (list N) (only parsing).

(** ASCII literals for examples: one code point per character. *)
Definition lit (s : string) : str :=
  N_of_ascii <$> list_ascii_of_string s.

(** The exceptions the modelled code can raise. *)
Inductive exn : Set :=
  | IndexError
  | KeyError
  | ValueError
  | AttributeError.

(** A call either returns a value or raises. *)
Inductive outcome (A : Type) : Type :=
  | Ok (a : A)
  | Raise (x : exn).
Arguments Ok {A} a.
Arguments Raise {A} x.

(** ** String primitives *)

Module Str.

(** [s.startswith(sub)] *)
Fixpoint startswith (sub s : str) : bool :=
  match sub, s with
  | [], _ => true
  | _ :: _, [] => false
  | a :: sub', b :: s' => (a =? b)%N && startswith sub' s'
  end.

(** [sub in s] *)
Fixpoint contains (sub s : str) : bool :=
  startswith sub s ||
  match s with
  | [] => false
  | _ :: s' => contains sub s'
  end.

(** [s.find(sub)], counted from offset [i]: the lowest index where [sub]
    starts, [-1] when there is none. *)
Fixpoint find_from (i : Z) (sub s : str) : Z :=
  if startswith sub s then i
  else match s with
       | [] => -1
       | _ :: s' => find_from (i + 1) sub s'
       end.

Definition find (s sub : str) : Z := find_from 0 sub s.

(** Slice bounds as Python clamps them: a negative bound counts from the
    end, and both are cut to [0, len]. *)
Definition clamp (len i : Z) : Z :=
  if i <? 0 then Z.max 0 (i + len) else Z.min i len.

(** [s[lo:hi]] *)
Definition slice (s : str) (lo hi : Z) : str :=
  let len := Z.of_nat (length s) in
  let lo' := clamp len lo in
  let hi' := clamp len hi in
  take (Z.to_nat (hi' - lo')) (drop (Z.to_nat lo') s).

(** [s[:hi]] *)
Definition slice_to (s : str) (hi : Z) : str := slice s 0 hi.

(** [sep.join(pieces)] *)
Fixpoint join (sep : str) (pieces : list str) : str :=
  match pieces with
  | [] => []
  | [p] => p
  | p :: ps => p ++ sep ++ join sep ps
  end.

(** The scan behind [s.split(sep)] for a non-empty [sep]: [skip] counts
    the characters of a separator just matched that are still to be
    passed over. *)
Fixpoint split_scan (sep : str) (skip : nat) (s : str) : list str :=
  match s with
  | [] => [[]]
  | c :: s' =>
      match skip with
      | S k => split_scan sep k s'
      | O =>
          if startswith sep s then [] :: split_scan sep (length sep - 1) s'
          else match split_scan sep 0 s' with
               | p :: ps => (c :: p) :: ps
               | [] => [[c]]
               end
      end
  end.

(** [s.split(sep)]: an empty separator raises [ValueError]. *)
Definition split (s sep : str) : outcome (list str) :=
  match sep with
  | [] => Raise ValueError
  | _ => Ok (split_scan sep 0 s)
  end.

(** The scan behind [s.replace(old, new)] for a non-empty [old]. *)
Fixpoint replace_scan (old new : str) (skip : nat) (s : str) : str :=
  match s with
  | [] => []
  | c :: s' =>
      match skip with
      | S k => replace_scan old new k s'
      | O =>
          if startswith old s then new ++ replace_scan old new (length old - 1) s'
          else c :: replace_scan old new 0 s'
      end
  end.

(** [s.replace(old, new)]: every non-overlapping occurrence, left to
    right; an empty [old] matches before every character and at the
    end. *)
Definition replace (s old new : str) : str :=
  match old with
  | [] => new ++ flat_map (λ c, c :: new) s
  | _ => replace_scan old new 0 s
  end.

(** [c.isspace()], which is also what [\s] matches in a [str] pattern. *)
Definition isspace (c : char) : bool :=
  ((9 <=? c) && (c <=? 13) || (28 <=? c) && (c <=? 32)
   || (c =? 133) || (c =? 160) || (c =? 5760)
   || (8192 <=? c) && (c <=? 8202)
   || (c =? 8232) || (c =? 8233) || (c =? 8239) || (c =? 8287)
   || (c =? 12288))%N.

Fixpoint lstrip (s : str) : str :=
  match s with
  | c :: s' => if isspace c then lstrip s' else s
  | [] => []
  end.

(** [s.strip()] *)
Definition strip (s : str) : str := reverse (lstrip (reverse (lstrip s))).

(** [re.sub('\s+', '', s)]: every maximal run of whitespace is deleted. *)
Definition remove_whitespace (s : str) : str :=
  filter (λ c, isspace c = false) s.

End Str.

(** ** The pattern automaton *)

(** Modelled from the spec: the pattern automaton, [ahocorasick.Automaton],
    is a third-party extension module whose code is not in the source.  The
    spec's words are that it is compiled once from the match keys and that a
    scan returns every occurrence of every key, by exact substring matching,
    nested and overlapping occurrences included.  The order of the reports
    (by the index of the last character, the longest key first), the
    refusal to store the empty word and the refusal to scan a structure
    that holds no word follow the library's documentation.  The structure is
    a store from keys to values together with its kind: [EMPTY] until a
    word is added, [TRIE] while words are added, [AHOCORASICK] once
    compiled. *)
Inductive automaton_kind : Set := EMPTY | TRIE | AHOCORASICK.

Record Automaton : Type := {
  kind : automaton_kind;
  store : gmap str (nat * str)
}.

(** [ahocorasick.Automaton()] *)
Definition Automaton_new : Automaton := {| kind := EMPTY; store := ∅ |}.

(** [A.add_word(key, value)]: the empty word is not stored; a new key turns
    the structure back into a trie, a known key only gets the new value. *)
Definition add_word (a : Automaton) (key : str) (value : nat * str) : Automaton :=
  match key with
  | [] => a
  | _ =>
      {| kind := match store a !! key with Some _ => kind a | None => TRIE end;
         store := <[key := value]> (store a) |}
  end.

(** [A.make_automaton()]: compiles a trie; does nothing otherwise. *)
Definition make_automaton (a : Automaton) : Automaton :=
  match kind a with
  | TRIE => {| kind := AHOCORASICK; store := store a |}
  | _ => a
  end.

(** The values of the keys that end at index [end_index] of [text], the
    longest key first. *)
Definition matches_ending_at (a : Automaton) (text : str) (end_index : nat)
  : list (nat * (nat * str)) :=
  omap (λ start, (λ value, (end_index, value)) <$>
                 store a !! take (S end_index - start) (drop start text))
       (seq 0 (S end_index)).

(** Modelled from the spec: [A.iter(text)], the scan.  A pair
    [(end_index, value)] for every occurrence of every key, by increasing
    index of the occurrence's last character.  Raises [AttributeError]
    unless the structure was compiled. *)
Definition iter (a : Automaton) (text : str) : outcome (list (nat * (nat * str))) :=
  match kind a with
  | AHOCORASICK => Ok (flat_map (matches_ending_at a text) (seq 0 (length text)))
  | _ => Raise AttributeError
  end.

(** ** The transliteration adapter *)

(** [xpinyin.Pinyin] is a third-party module; its method
    [get_pinyin(chars, splitter)] is taken as a parameter of the engine. *)
Record Pinyin : Type := {
  get_pinyin : str → str → str
}.

(** ** The engine object and its methods *)

Record EntityCorrect : Type := {
  pinyin : Pinyin;
  splitter_symbol : str;
  use_pinyin : bool;
  synonym_dict : gmap str str;
  ac_synonym : Automaton
}.

(** A method call runs on [self], may assign its attributes, and returns
    or raises. *)
Definition M (A : Type) : Type := EntityCorrect → outcome A * EntityCorrect.

#[global] Instance M_ret : MRet M := λ A a self, (Ok a, self).

#[global] Instance M_bind : MBind M := λ A B k m self,
  match m self with
  | (Ok a, self') => k a self'
  | (Raise x, self') => (Raise x, self')
  end.

(** A computation that does not touch [self]. *)
Definition lift {A} (m : outcome A) : M A := λ self, (m, self).

(** [self.attr] *)
Definition read {A} (attr : EntityCorrect → A) : M A := λ self, (Ok (attr self), self).

(** [self.synonym_dict = d] *)
Definition set_synonym_dict (d : gmap str str) : M unit := λ self,
  (Ok tt, {| pinyin := pinyin self; splitter_symbol := splitter_symbol self;
             use_pinyin := use_pinyin self; synonym_dict := d;
             ac_synonym := ac_synonym self |}).

(** [self.ac_synonym = a] *)
Definition set_ac_synonym (a : Automaton) : M unit := λ self,
  (Ok tt, {| pinyin := pinyin self; splitter_symbol := splitter_symbol self;
             use_pinyin := use_pinyin self; synonym_dict := synonym_dict self;
             ac_synonym := a |}).

(** [for x in l: s = body(x, s)] *)
Fixpoint for_each {A S} (l : list A) (body : A → S → M S) (s : S) : M S :=
  match l with
  | [] => mret s
  | x :: l' => s' ← body x s; for_each l' body s'
  end.

(** [l[i]] for [i >= 0] *)
Definition item {A} (l : list A) (i : nat) : outcome A :=
  match l !! i with
  | Some x => Ok x
  | None => Raise IndexError
  end.

(** [d[k]] *)
Definition getitem (d : gmap str str) (k : str) : outcome str :=
  match d !! k with
  | Some v => Ok v
  | None => Raise KeyError
  end.

(** [l.pop(i)] for [i >= 0], as the list it leaves behind. *)
Definition pop {A} (l : list A) (i : nat) : outcome (list A) :=
  if decide (i < length l)%nat then Ok (delete i l) else Raise IndexError.

(** [if x not in l: l.append(x)] *)
Definition append_new `{EqDecision A} (l : list A) (x : A) : list A :=
  if bool_decide (x ∈ l) then l else l ++ [x].

Definition tab : str := [9%N].
Definition at_at : str := lit "@@".

(** The body of the inner loop of [_get_synonym], for field [i] of a line. *)
Definition synonym_field (word_list : list str) (standard_word : str)
    (use_pinyin : bool) (i : nat) (acc : gmap str str * list str)
  : M (gmap str str * list str) :=
  let '(synonym_dict, word_all) := acc in
  word ← lift (item word_list i);
  word ← (if use_pinyin then
            field ← lift (item word_list i);
            py ← read pinyin;
            splitter ← read splitter_symbol;
            mret (get_pinyin py field splitter)
          else mret word);
  mret (<[word := standard_word]> synonym_dict, append_new word_all word).

(** The body of the outer loop of [_get_synonym], for one line. *)
Definition synonym_line (use_pinyin : bool) (line : str)
    (acc : gmap str str * list str) : M (gmap str str * list str) :=
  word_list ← lift (Str.split (Str.strip line) tab);
  standard_word ← lift (item word_list 0);
  for_each (seq 0 (length word_list))
           (synonym_field word_list standard_word use_pinyin) acc.

(** [_get_synonym(file_path, use_pinyin)], on the lines of the file. *)
Definition _get_synonym (file : list str) (use_pinyin : bool)
  : M (gmap str str * list str) :=
  for_each file (synonym_line use_pinyin) (∅, []).

(** [_build_actree(wordlist)] *)
Definition _build_actree (wordlist : list str) : M Automaton :=
  let actree := Automaton_new in
  let actree :=
    foldl (λ actree '(index, word), add_word actree word (index, word))
          actree (imap (λ index word, (index, word)) wordlist) in
  mret (make_automaton actree).

(** [EntityCorrect(synonym_path, use_pinyin, splitter_symbol)], given the
    transliteration object and the lines of the synonym file.  Attributes
    not assigned yet hold an empty dictionary and an empty automaton. *)
Definition __init__ (py : Pinyin) (synonym_file : list str)
    (use_pinyin' : bool) (splitter_symbol' : str) : outcome EntityCorrect :=
  let self :=
    {| pinyin := py; splitter_symbol := splitter_symbol';
       use_pinyin := use_pinyin'; synonym_dict := ∅;
       ac_synonym := Automaton_new |} in
  let body : M unit :=
    flag ← read use_pinyin;
    '(d, synonym_list) ← _get_synonym synonym_file flag;
    set_synonym_dict d;;
    actree ← _build_actree synonym_list;
    set_ac_synonym actree in
  match body self with
  | (Ok _, self) => Ok self
  | (Raise x, _) => Raise x
  end.

(** [get_index(text, synonym, use_pinyin)] *)
Definition get_index (text synonym : str) (use_pinyin : bool) : M (Z * Z * str) :=
  if use_pinyin then
    splitter ← read splitter_symbol;
    tokens ← lift (Str.split synonym splitter);
    let word_len := Z.of_nat (length tokens) in
    segments ← lift (Str.split (Str.slice_to text (Str.find text synonym)) at_at);
    let start_index := Z.of_nat (length segments) - 1 in
    let end_index := start_index + word_len in
    mret (start_index, end_index, synonym)
  else
    let word_len := Z.of_nat (length synonym) in
    let start_index := Str.find text synonym in
    let end_index := start_index + word_len in
    mret (start_index, end_index, synonym).

(** The inner loop of the resolver in [run]: index [i] is appended to
    [del_index] once if the key at [i] is contained in the key at some
    other index [j]. *)
Definition mark_against (match_synonym : list str) (i j : nat)
    (del_index : list nat) : M (list nat) :=
  if negb (i =? j)%nat then
    key_i ← lift (item match_synonym i);
    key_j ← lift (item match_synonym j);
    if Str.contains key_i key_j then mret (append_new del_index i)
    else mret del_index
  else mret del_index.

(** The outer loop of the resolver: the offsets of every occurrence are
    recorded, and the occurrences to discard are marked. *)
Definition resolve_step (text_trans : str) (match_synonym : list str) (i : nat)
    (acc : list (Z * Z * str) * list nat) : M (list (Z * Z * str) * list nat) :=
  let '(word_index_list, del_index) := acc in
  key ← lift (item match_synonym i);
  flag ← read use_pinyin;
  word_index ← get_index text_trans key flag;
  let word_index_list := word_index_list ++ [word_index] in
  del_index ← for_each (seq 0 (length match_synonym))
                       (mark_against match_synonym i) del_index;
  mret (word_index_list, del_index).

(** [for index in del_index: word_index_list.pop(index)] *)
Definition pop_marked {A} (del_index : list nat) (word_index_list : list A)
  : M (list A) :=
  for_each del_index (λ index l, lift (pop l index)) word_index_list.

(** The body of the substitution loop of [run]. *)
Definition substitute (text_raw : str) (item : Z * Z * str)
    (acc : str * list (str * str) * list str)
  : M (str * list (str * str) * list str) :=
  let '(update_text, standard_synonym, standard_namelist) := acc in
  let '(start_index, end_index, synonym) := item in
  d ← read synonym_dict;
  standard_name ← lift (getitem d synonym);
  let replace_word := Str.slice text_raw start_index end_index in
  let update_text := Str.replace update_text replace_word standard_name in
  let result := (standard_name, synonym) in
  mret (update_text, standard_synonym ++ [result],
        append_new standard_namelist standard_name).

(** [list(set(l))]: the distinct elements, in an order that carries no
    meaning. *)
Definition list_of_set (l : list (str * str)) : list (str * str) :=
  elements (list_to_set l : gset (str * str)).

(** [run(text_raw)], returning
    [(update_text, standard_synonym, standard_namelist)]. *)
Definition run (text_raw : str) : M (str * list (str * str) * list str) :=
  let text_raw := Str.strip (Str.remove_whitespace text_raw) in
  flag ← read use_pinyin;
  text_trans ← (if flag : bool then
                  py ← read pinyin;
                  splitter ← read splitter_symbol;
                  mret (get_pinyin py text_raw splitter)
                else mret text_raw);
  actree ← read ac_synonym;
  ac_match ← lift (iter actree text_trans);
  let match_synonym :=
    (λ '(end_index, (index, word_match)), word_match) <$> ac_match in
  '(word_index_list, del_index) ←
    for_each (seq 0 (length match_synonym))
             (resolve_step text_trans match_synonym) ([], []);
  word_index_list ← pop_marked del_index word_index_list;
  '(update_text, standard_synonym, standard_namelist) ←
    for_each word_index_list (substitute text_raw) (text_raw, [], []);
  let standard_synonym := list_of_set standard_synonym in
  mret (update_text, standard_synonym, standard_namelist).

(** [run] from line 116 on, the resolver and the substitution, for the
    normalised input [text_raw], the scanned text [text_trans] and the list
    [match_synonym] that lines 112 to 114 collect from the scan. *)
Definition resolve_and_substitute (text_raw text_trans : str)
    (match_synonym : list str) : M (str * list (str * str) * list str) :=
  '(word_index_list, del_index) ←
    for_each (seq 0 (length match_synonym))
             (resolve_step text_trans match_synonym) ([], []);
  word_index_list ← pop_marked del_index word_index_list;
  '(update_text, standard_synonym, standard_namelist) ←
    for_each word_index_list (substitute text_raw) (text_raw, [], []);
  let standard_synonym := list_of_set standard_synonym in
  mret (update_text, standard_synonym, standard_namelist).

(** * Specification vocabulary *)

(** [sub] occurs in [s] starting at index [i]. *)
Definition occurs_at (sub s : str) (i : nat) : Prop :=
  ∃ l r, s = l ++ sub ++ r ∧ length l = i.

(** [sub] occurs somewhere in [s]. *)
Definition occurs (sub s : str) : Prop := ∃ i, occurs_at sub s i.

(** A sequence with duplicates removed, the first occurrence of each
    element kept in place. *)
Fixpoint first_seen (l : list str) : list str :=
  match l with
  | [] => []
  | x :: l' => x :: filter (λ y, y ≠ x) (first_seen l')
  end.

(** A method that never assigns an attribute of [self]. *)
Definition readonly {A} (m : M A) : Prop := ∀ self, (m self).2 = self.

(** One round of the loop of [_build_actree]. *)
Definition step (actree : Automaton) (entry : nat * str) : Automaton :=
  let '(index, word) := entry in add_word actree word (index, word).

(** The automaton that [_build_actree] compiles from a word list. *)
Definition actree_of (wordlist : list str) : Automaton :=
  make_automaton
    (foldl step Automaton_new (imap (λ index word, (index, word)) wordlist)).

(** The fields of a line of the synonym file. *)
Definition fields (line : str) : list str :=
  Str.split_scan tab 0 (Str.strip line).

(** The key under which a field is indexed. *)
Definition match_key (py : Pinyin) (splitter : str) (flag : bool) (word : str) : str :=
  if flag then get_pinyin py word splitter else word.

(** What one field contributes to the dictionary and the word list. *)
Definition register (standard_word : str) (acc : gmap str str * list str)
    (word : str) : gmap str str * list str :=
  (<[word := standard_word]> acc.1, append_new acc.2 word).

Definition load_line (py : Pinyin) (splitter : str) (flag : bool)
    (acc : gmap str str * list str) (line : str) : gmap str str * list str :=
  foldl (register (default [] (head (fields line)))) acc
        (match_key py splitter flag <$> fields line).

(** The dictionary and word list that [_get_synonym] returns. *)
Definition load_dict (py : Pinyin) (splitter : str) (flag : bool)
    (file : list str) : gmap str str * list str :=
  foldl (load_line py splitter flag) (∅, []) file.

(** The engine that construction produces. *)
Definition engine_of (py : Pinyin) (file : list str) (flag : bool)
    (splitter : str) : EntityCorrect :=
  {| pinyin := py; splitter_symbol := splitter; use_pinyin := flag;
     synonym_dict := (load_dict py splitter flag file).1;
     ac_synonym := actree_of (load_dict py splitter flag file).2 |}.

(** The input as [run] normalises it. *)
Definition normalize (text_raw : str) : str :=
  Str.strip (Str.remove_whitespace text_raw).

(** The text that [run] hands to the automaton. *)
Definition scanned_text (self : EntityCorrect) (text_raw : str) : str :=
  if use_pinyin self
  then get_pinyin (pinyin self) (normalize text_raw) (splitter_symbol self)
  else normalize text_raw.

(** The keys of the occurrences a scan reported, in scan order. *)
Definition keys_of (ac_match : list (nat * (nat * str))) : list str :=
  (λ '(end_index, (index, word_match)), word_match) <$> ac_match.

(** The key at [i] is contained in the key at another index [j]. *)
Definition key_in_other (match_synonym : list str) (i j : nat) : bool :=
  negb (i =? j)%nat &&
  match match_synonym !! i, match_synonym !! j with
  | Some key_i, Some key_j => Str.contains key_i key_j
  | _, _ => false
  end.

(** The occurrence at [i] is one the resolver has to discard: its key is a
    substring of the key of a distinct occurrence. *)
Definition is_marked (match_synonym : list str) (i : nat) : bool :=
  existsb (key_in_other match_synonym i) (seq 0 (length match_synonym)).

(** The offsets of a key in literal mode. *)
Definition literal_index (text key : str) : Z * Z * str :=
  (Str.find text key, Str.find text key + Z.of_nat (length key), key).

(** ** Dictionaries and adapters used in the examples *)

(** A transliteration by table: a character with an entry becomes its
    syllable, any other character is a token of its own. *)
Definition syllable (table : list (N * str)) (c : N) : str :=
  match list_find (λ entry, entry.1 = c) table with
  | Some (_, (_, s)) => s
  | None => [c]
  end.

Definition table_pinyin (table : list (N * str)) : Pinyin :=
  {| get_pinyin := λ chars splitter, Str.join splitter (syllable table <$> chars) |}.

(** 招 zhao, 找 zhao, 行 hang, 商 shang, 银 yin, 去 qu *)
Definition syllables : list (N * str) :=
  [(25307%N, lit "zhao"); (25214%N, lit "zhao"); (34892%N, lit "hang");
   (21830%N, lit "shang"); (38134%N, lit "yin"); (21435%N, lit "qu")].

Definition newline : str := [10%N].

(** 农业银行, 招商银行, 招行, 找行, 去找行 *)
Definition nongye_yinhang : str := [20892; 19994; 38134; 34892]%N.
Definition zhaoshang_yinhang : str := [25307; 21830; 38134; 34892]%N.
Definition zhaohang : str := [25307; 34892]%N.
Definition qu_zhaohang_typo : str := [21435; 25214; 34892]%N.

(** The file [农业银行\n招商银行\t招行\n]. *)
Definition bank_file : list str :=
  [nongye_yinhang ++ newline; zhaoshang_yinhang ++ tab ++ zhaohang ++ newline].

(** The file [招商银行\t招行\n]. *)
Definition zhaohang_file : list str :=
  [zhaoshang_yinhang ++ tab ++ zhaohang ++ newline].

(** The canonical names of a synonym file: the first field of each line. *)
Definition canonical_names (file : list str) : list str :=
  omap (λ line, head (fields line)) file.


(** ** Vocabulary for the further properties *)

(** The keys that a line of the synonym file registers, in field order. *)
Definition line_keys (py : Pinyin) (splitter : str) (flag : bool) (line : str)
  : list str :=
  match_key py splitter flag <$> fields line.

(** The keys of a file, in the order the loops of [_get_synonym] meet
    them. *)
Definition file_keys (py : Pinyin) (splitter : str) (flag : bool)
    (file : list str) : list str :=
  flat_map (line_keys py splitter flag) file.

(** The positions of the original list that the pops of [run] remove: the
    [k]-th index popped, [d], takes the element that stood at [d + k]. *)
Definition popped_positions (del_index : list nat) : list nat :=
  imap (λ k d, (d + k)%nat) del_index.

(** [l] without the elements at the positions [ps], the head of [l] being
    at position [i]. *)
Fixpoint without_positions {A} (ps : list nat) (i : nat) (l : list A) : list A :=
  match l with
  | [] => []
  | x :: l' =>
      if decide (i ∈ ps) then without_positions ps (S i) l'
      else x :: without_positions ps (S i) l'
  end.

(** The text before token [p] of a text of tokens joined by [sep],
    separator included. *)
Definition token_prefix (sep : str) (pre : list str) : str :=
  match pre with
  | [] => []
  | _ => Str.join sep pre ++ sep
  end.

(** ** Vocabulary for running twice *)




(** * Facts about the string primitives *)

Module StrFacts.
Import Str.

Lemma startswith_spec sub s : startswith sub s = true ↔ ∃ r, s = sub ++ r.
Proof.
  revert s; induction sub as [|a sub IH]; intros s; simpl.
  - split; eauto.
  - destruct s as [|b s].
    + split; [done | by intros [r Hr]].
    + rewrite andb_true_iff, N.eqb_eq, IH. split.
      * intros [-> [r ->]]. eauto.
      * intros [r Hr]. simplify_eq/=. eauto.
Qed.

Lemma startswith_nil_r sub : startswith sub [] = true → sub = [].
Proof. by destruct sub. Qed.

Lemma contains_spec sub s : contains sub s = true ↔ ∃ l r, s = l ++ sub ++ r.
Proof.
  induction s as [|c s IH]; simpl.
  - rewrite orb_false_r. split.
    + intros ->%startswith_nil_r. by exists [], [].
    + intros (l & r & H). symmetry in H.
      apply app_eq_nil in H as [_ [-> _]%app_eq_nil]. done.
  - rewrite orb_true_iff, startswith_spec, IH. split.
    + intros [[r Hr] | (l & r & ->)].
      * exists [], r. done.
      * exists (c :: l), r. done.
    + intros (l & r & H). destruct l as [|c' l]; simpl in H.
      * left. eauto.
      * right. simplify_eq. eauto.
Qed.

Lemma contains_occurs sub s : contains sub s = true ↔ occurs sub s.
Proof.
  rewrite contains_spec. unfold occurs, occurs_at. split.
  - intros (l & r & ->). eauto.
  - intros (i & l & r & -> & _). eauto.
Qed.

(** [find] returns the start of the first occurrence. *)
Lemma find_from_first i sub s :
  contains sub s = true →
  ∃ l r, s = l ++ sub ++ r
         ∧ find_from i sub s = i + Z.of_nat (length l)
         ∧ ∀ l' r', s = l' ++ sub ++ r' → (length l ≤ length l')%nat.
Proof.
  revert i; induction s as [|c s IH]; intros i Hc; simpl in *.
  - rewrite orb_false_r in Hc. rewrite Hc.
    apply startswith_nil_r in Hc as ->. exists [], []. simpl.
    split_and!; [done | lia | intros; lia].
  - destruct (startswith sub (c :: s)) eqn:Hs.
    + apply startswith_spec in Hs as [r Hr]. exists [], r. simpl.
      split_and!; [done | lia | intros; lia].
    + simpl in Hc. destruct (IH (i + 1) Hc) as (l & r & -> & Hf & Hmin).
      exists (c :: l), r. simpl. split_and!; [done | lia |].
      intros l' r' H'. destruct l' as [|c' l']; simpl in H'.
      * assert (startswith sub (c :: l ++ sub ++ r) = true) as Hs'
          by (apply startswith_spec; eauto).
        congruence.
      * injection H' as -> H'. simpl. specialize (Hmin _ _ H'). lia.
Qed.

Lemma find_from_absent i sub s : contains sub s = false → find_from i sub s = -1.
Proof.
  revert i; induction s as [|c s IH]; intros i Hc; simpl in *.
  - rewrite orb_false_r in Hc. by rewrite Hc.
  - apply orb_false_iff in Hc as [-> Hc]. by apply IH.
Qed.

Lemma slice_middle l k r :
  slice (l ++ k ++ r) (Z.of_nat (length l)) (Z.of_nat (length l) + Z.of_nat (length k)) = k.
Proof.
  unfold slice, clamp. rewrite !length_app.
  destruct (Z.ltb_spec (Z.of_nat (length l)) 0); [lia|].
  destruct (Z.ltb_spec (Z.of_nat (length l) + Z.of_nat (length k)) 0); [lia|].
  replace (Z.to_nat (Z.min (Z.of_nat (length l)) _)) with (length l) by lia.
  replace (Z.to_nat (_ - _)) with (length k) by lia.
  rewrite drop_app_length. by rewrite take_app_length.
Qed.

(** In literal mode the text cut out at the offsets of a key that occurs
    is the key itself. *)
Lemma slice_find s k :
  contains k s = true →
  slice s (find s k) (find s k + Z.of_nat (length k)) = k.
Proof.
  intros Hc. destruct (find_from_first 0 k s Hc) as (l & r & -> & Hf & _).
  unfold find. rewrite Hf, Z.add_0_l. apply slice_middle.
Qed.

Lemma join_cons2 sep p q ps : join sep (p :: q :: ps) = p ++ sep ++ join sep (q :: ps).
Proof. done. Qed.

Lemma join_cons_head sep c p ps : join sep ((c :: p) :: ps) = c :: join sep (p :: ps).
Proof. by destruct ps. Qed.

Lemma split_scan_nonempty sep skip s : split_scan sep skip s ≠ [].
Proof.
  revert skip; induction s as [|c s IH]; intros skip; simpl; [done|].
  destruct skip; [|done]. destruct (startswith sep (c :: s)); [done|].
  by destruct (split_scan sep 0 s).
Qed.

(** [s.replace(old, new) == new.join(s.split(old))] *)
Lemma replace_scan_join old new skip s :
  replace_scan old new skip s = join new (split_scan old skip s).
Proof.
  revert skip; induction s as [|c s IH]; intros skip; simpl; [done|].
  destruct skip; [|done]. destruct (startswith old (c :: s)).
  - rewrite IH. pose proof (split_scan_nonempty old (length old - 1) s).
    by destruct (split_scan old (length old - 1) s).
  - rewrite IH. pose proof (split_scan_nonempty old 0 s).
    destruct (split_scan old 0 s) as [|p ps]; [done|].
    by rewrite join_cons_head.
Qed.

(** [sep.join(s.split(sep)) == s] *)
Lemma join_split_scan sep skip s :
  sep ≠ [] → join sep (split_scan sep skip s) = drop skip s.
Proof.
  intros Hsep. revert skip; induction s as [|c s IH]; intros skip; simpl.
  - by destruct skip.
  - destruct skip; [|done]. destruct (startswith sep (c :: s)) eqn:Hs.
    + pose proof (split_scan_nonempty sep (length sep - 1) s).
      specialize (IH (length sep - 1)%nat).
      destruct (split_scan sep (length sep - 1) s) as [|p ps]; [done|].
      rewrite join_cons2, IH. simpl.
      apply startswith_spec in Hs as [r Hr].
      destruct sep as [|a sep']; [done|]. simpl in *. simplify_eq.
      rewrite Nat.sub_0_r, drop_app_length. done.
    + pose proof (split_scan_nonempty sep 0 s).
      specialize (IH 0%nat).
      destruct (split_scan sep 0 s) as [|p ps]; [done|].
      rewrite join_cons_head, IH. done.
Qed.

Lemma contains_nil_r sep : sep ≠ [] → contains sep [] = false.
Proof. by destruct sep. Qed.

(** No piece of a split contains the separator. *)
Lemma split_scan_pieces sep skip s :
  sep ≠ [] →
  ∃ p ps, split_scan sep skip s = p :: ps
          ∧ (∃ rest, drop skip s = p ++ rest)
          ∧ Forall (λ q, contains sep q = false) (p :: ps).
Proof.
  intros Hsep. revert skip; induction s as [|c s IH]; intros skip; simpl.
  - exists [], []. split_and!; [done | exists []; by destruct skip |].
    repeat constructor. by apply contains_nil_r.
  - destruct skip as [|k]; [|apply IH].
    destruct (startswith sep (c :: s)) eqn:Hs.
    + destruct (IH (length sep - 1)%nat) as (p & ps & -> & _ & Hall).
      exists [], (p :: ps). split_and!; [done | by exists (c :: s) |].
      constructor; [by apply contains_nil_r | done].
    + destruct (IH 0%nat) as (p & ps & -> & [rest Hrest] & Hall).
      rewrite drop_0 in Hrest. subst s.
      exists (c :: p), ps. split_and!; [done | by exists rest |].
      apply Forall_cons in Hall as [Hp Hps]. constructor; [|done].
      simpl. rewrite Hp, orb_false_r.
      destruct (startswith sep (c :: p)) eqn:Hs'; [|done].
      apply startswith_spec in Hs' as [r Hr].
      assert (startswith sep (c :: p ++ rest) = true) as Hs''.
      { apply startswith_spec. exists (r ++ rest).
        rewrite app_assoc, <- Hr. done. }
      congruence.
Qed.

Lemma join_singletons sep (s : str) :
  join sep (((λ c, [c]) <$> s) ++ [[]]) = flat_map (λ c, c :: sep) s.
Proof.
  induction s as [|c s IH]; [done|].
  rewrite fmap_cons. simpl flat_map. rewrite <- IH.
  by destruct s.
Qed.

(** What [replace] does, in terms of the pieces between the occurrences it
    replaces: the text is those pieces joined by [old], the result is the
    same pieces joined by [new], and no piece holds a further [old]. *)
Lemma replace_pieces s old new :
  ∃ pieces,
    s = join old pieces
    ∧ replace s old new = join new pieces
    ∧ (old ≠ [] → Forall (λ p, contains old p = false) pieces).
Proof.
  destruct old as [|a old'].
  - exists ([] :: ((λ c, [c]) <$> s) ++ [[]]). split_and!; [| |done].
    + change (s = join [] ([] :: (((λ c, [c]) <$> s) ++ [[]]))).
      assert (∀ l : list str, join [] ([] :: l) = join [] l) as ->.
      { by intros [|??]. }
      rewrite join_singletons. induction s as [|c s IH]; [done|].
      simpl. by rewrite <- IH.
    + unfold replace. rewrite <- join_singletons.
      by destruct s.
  - set (old := a :: old'). assert (old ≠ []) as Hold by done.
    exists (split_scan old 0 s). split_and!.
    + by rewrite join_split_scan.
    + unfold replace. apply replace_scan_join.
    + intros _. destruct (split_scan_pieces old 0 s Hold) as (p & ps & -> & _ & H).
      done.
Qed.


Lemma lstrip_no_space s :
  Forall (λ c, isspace c = false) s → lstrip s = s.
Proof. destruct 1 as [|c s Hc]; simpl; [done | by rewrite Hc]. Qed.

(** Normalisation leaves a text without whitespace alone. *)
Lemma normalize_no_space s :
  Forall (λ c, isspace c = false) s → strip (remove_whitespace s) = s.
Proof.
  intros Hs. unfold remove_whitespace, strip.
  assert (filter (λ c, isspace c = false) s = s) as ->.
  { induction Hs as [|c s Hc Hs IH]; [done|].
    rewrite filter_cons_True by done. by rewrite IH. }
  rewrite (lstrip_no_space s) by done.
  rewrite lstrip_no_space by (by apply Forall_reverse).
  apply reverse_involutive.
Qed.

End StrFacts.

(** The primitives on small inputs, as Python evaluates them. *)
Example find_first : Str.find (lit "zhao@@hang@@hang") (lit "hang") = 6.
Proof. reflexivity. Qed.

Example find_absent : Str.find (lit "abc") (lit "d") = -1.
Proof. reflexivity. Qed.

Example split_at_at :
  Str.split (lit "a@@b@@@c") at_at = Ok [lit "a"; lit "b"; lit "@c"]
  ∧ Str.split (lit "abc") [] = Raise ValueError.
Proof. split; reflexivity. Qed.

Example replace_all :
  Str.replace (lit "aaabaa") (lit "aa") (lit "x") = lit "xabx"
  ∧ Str.replace (lit "abc") [] (lit "X") = lit "XaXbXcX".
Proof. split; reflexivity. Qed.

Example slice_bounds :
  Str.slice (lit "abcdef") 1 3 = lit "bc"
  ∧ Str.slice_to (lit "abc") (-1) = lit "ab"
  ∧ Str.slice (lit "abc") 2 9 = lit "c".
Proof. split_and!; reflexivity. Qed.

Example strip_line : Str.strip (lit "  a b ") = lit "a b".
Proof. reflexivity. Qed.

(** * Running methods *)

Section monad_facts.
Context {A B : Type}.

Lemma bind_Ok (m : M A) (k : A → M B) self b self' :
  (m ≫= k) self = (Ok b, self') →
  ∃ a self1, m self = (Ok a, self1) ∧ k a self1 = (Ok b, self').
Proof.
  unfold mbind, M_bind. destruct (m self) as [[a|x] self1]; [eauto | done].
Qed.

Lemma bind_run_Ok (m : M A) (k : A → M B) self a self1 :
  m self = (Ok a, self1) → (m ≫= k) self = k a self1.
Proof. unfold mbind, M_bind. by intros ->. Qed.

Lemma readonly_ret (a : A) : readonly (mret a : M A).
Proof. by intros self. Qed.

Lemma readonly_lift (m : outcome A) : readonly (lift m).
Proof. by intros self. Qed.

Lemma readonly_read (attr : EntityCorrect → A) : readonly (read attr).
Proof. by intros self. Qed.

Lemma readonly_bind (m : M A) (k : A → M B) :
  readonly m → (∀ a, readonly (k a)) → readonly (m ≫= k).
Proof.
  intros Hm Hk self. unfold mbind, M_bind.
  specialize (Hm self). destruct (m self) as [[a|x] self1]; simpl in *; subst.
  - apply Hk.
  - done.
Qed.

End monad_facts.

(** Unfolds the plumbing of [M] in the goal. *)
Ltac exec := unfold mbind, M_bind, mret, M_ret, lift, read; simpl.

Lemma readonly_for_each {A S} (l : list A) (body : A → S → M S) s :
  (∀ x s, readonly (body x s)) → readonly (for_each l body s).
Proof.
  intros Hbody. revert s; induction l as [|x l IH]; intros s; simpl.
  - apply readonly_ret.
  - apply readonly_bind; [apply Hbody | apply IH].
Qed.

Lemma readonly_if {A} (b : bool) (m1 m2 : M A) :
  readonly m1 → readonly m2 → readonly (if b then m1 else m2).
Proof. by destruct b. Qed.

Create HintDb readonly.
#[global] Hint Resolve readonly_ret readonly_lift readonly_read : readonly.
#[global] Hint Extern 2 (readonly (_ ≫= _)) =>
  apply readonly_bind; [|intros ?] : readonly.
#[global] Hint Extern 2 (readonly (for_each _ _ _)) =>
  apply readonly_for_each; intros ? ? : readonly.
#[global] Hint Extern 2 (readonly (if _ then _ else _)) =>
  apply readonly_if : readonly.
#[global] Hint Extern 3 (readonly (let '(_, _) := ?p in _)) =>
  destruct p : readonly.
#[global] Hint Extern 3 (readonly (match ?p with (_, _) => _ end _)) =>
  destruct p : readonly.

Lemma get_index_readonly text synonym flag : readonly (get_index text synonym flag).
Proof. unfold get_index. auto 10 with readonly. Qed.

Lemma mark_against_readonly ms i j del : readonly (mark_against ms i j del).
Proof. unfold mark_against. auto 10 with readonly. Qed.

Lemma resolve_step_readonly tt ms i acc : readonly (resolve_step tt ms i acc).
Proof.
  unfold resolve_step. destruct acc as [wil del].
  pose proof get_index_readonly. pose proof mark_against_readonly.
  auto 12 with readonly.
Qed.

Lemma pop_marked_readonly {A} del (wil : list A) : readonly (pop_marked del wil).
Proof. unfold pop_marked. auto with readonly. Qed.

Lemma substitute_readonly text_raw item acc : readonly (substitute text_raw item acc).
Proof.
  unfold substitute. destruct acc as [[u ss] sn], item as [[s e] k].
  auto 10 with readonly.
Qed.

Lemma run_readonly text_raw : readonly (run text_raw).
Proof.
  unfold run.
  pose proof resolve_step_readonly. pose proof @pop_marked_readonly.
  pose proof substitute_readonly.
  apply readonly_bind; [auto with readonly | intros flag].
  apply readonly_bind; [destruct flag; auto 10 with readonly | intros tt].
  apply readonly_bind; [auto with readonly | intros actree].
  apply readonly_bind; [auto with readonly | intros ac_match].
  apply readonly_bind; [auto with readonly | intros [wil del]].
  apply readonly_bind; [auto with readonly | intros wil'].
  apply readonly_bind; [auto with readonly | intros [[u ss] sn]].
  auto with readonly.
Qed.

(** * Facts about the automaton *)

Lemma substring_occurs (text : str) start n :
  occurs (take n (drop start text)) text.
Proof.
  exists (length (take start text)), (take start text), (drop n (drop start text)).
  split; [|done]. by rewrite take_drop, take_drop.
Qed.

(** Whatever [iter] reports is the value stored for a non-empty substring
    of the text that ends at the reported index. *)
Lemma iter_sound a text ac_match end_index value :
  iter a text = Ok ac_match →
  (end_index, value) ∈ ac_match →
  ∃ key, store a !! key = Some value ∧ key ≠ [] ∧ occurs key text.
Proof.
  unfold iter. destruct (kind a); try done. intros [= <-] Hin.
  apply list_elem_of_In, in_flat_map in Hin as (e & He & Hin).
  apply in_seq in He. apply list_elem_of_In in Hin.
  unfold matches_ending_at in Hin.
  apply list_elem_of_omap in Hin as (start & Hstart & Hlook).
  apply elem_of_seq in Hstart.
  destruct (store a !! _) as [v|] eqn:Hv; simplify_eq/=.
  eexists. split_and!; [exact Hv | | apply substring_occurs].
  intros Hnil. apply (f_equal length) in Hnil.
  rewrite length_take, length_drop in Hnil. simpl in Hnil. lia.
Qed.

(** [iter] reports every occurrence of every stored key. *)
Lemma iter_complete a text key value i :
  kind a = AHOCORASICK →
  store a !! key = Some value →
  key ≠ [] →
  occurs_at key text i →
  ∃ ac_match, iter a text = Ok ac_match
              ∧ ((i + length key - 1)%nat, value) ∈ ac_match.
Proof.
  intros Hkind Hkey Hne (l & r & -> & <-).
  unfold iter. rewrite Hkind. eexists. split; [done|].
  assert (0 < length key)%nat by (destruct key; [done | simpl; lia]).
  apply list_elem_of_In, in_flat_map. exists (length l + length key - 1)%nat. split.
  - apply in_seq. rewrite !length_app. lia.
  - apply list_elem_of_In. unfold matches_ending_at.
    apply list_elem_of_omap. exists (length l). split.
    + apply elem_of_seq. lia.
    + replace (S (length l + length key - 1) - length l)%nat with (length key) by lia.
      rewrite drop_app_length, take_app_length, Hkey. done.
Qed.

(** A scan of a text in which no stored key occurs reports nothing. *)
Lemma iter_nothing a text :
  kind a = AHOCORASICK →
  (∀ key, is_Some (store a !! key) → key ≠ [] → ¬ occurs key text) →
  iter a text = Ok [].
Proof.
  intros Hkind Hno.
  destruct (iter a text) as [ac_match|x] eqn:Hiter.
  - destruct ac_match as [|[e v] ac_match]; [done|].
    destruct (iter_sound a text _ e v Hiter) as (key & Hk & Hne & Hocc);
      [left|].
    exfalso. by apply (Hno key).
  - unfold iter in Hiter. by rewrite Hkind in Hiter.
Qed.

Lemma build_actree_run wordlist self :
  _build_actree wordlist self = (Ok (actree_of wordlist), self).
Proof. done. Qed.

Lemma add_words_store_inv (ps : list (nat * str)) a key value :
  store (foldl step a ps) !! key = Some value →
  store a !! key = Some value
  ∨ ∃ index, value = (index, key) ∧ (index, key) ∈ ps ∧ key ≠ [].
Proof.
  revert a; induction ps as [|[i w] ps IH]; intros a H; simpl in *; [by left|].
  apply IH in H as [H | (index & -> & Hin & Hne)].
  - unfold add_word in H. destruct w as [|c w]; [by left|].
    simpl in H. destruct (decide (c :: w = key)) as [<-|Hne].
    + rewrite lookup_insert_eq in H. simplify_eq. right. exists i.
      split_and!; [done | left | done].
    + rewrite lookup_insert_ne in H by done. by left.
  - right. exists index. split_and!; [done | by right | done].
Qed.

Lemma add_words_store_keep (ps : list (nat * str)) a key index :
  store a !! key = Some (index, key) →
  ∃ index', store (foldl step a ps) !! key = Some (index', key).
Proof.
  revert a index; induction ps as [|[i w] ps IH]; intros a index H; simpl; [eauto|].
  unfold add_word. destruct w as [|c w]; [by eapply IH|].
  destruct (decide (c :: w = key)) as [<-|Hne].
  - eapply (IH _ i). simpl. by rewrite lookup_insert_eq.
  - eapply (IH _ index). simpl. by rewrite lookup_insert_ne.
Qed.

Lemma add_words_store_mem (ps : list (nat * str)) a key index :
  (index, key) ∈ ps → key ≠ [] →
  ∃ index', store (foldl step a ps) !! key = Some (index', key).
Proof.
  revert a; induction ps as [|[i w] ps IH]; intros a Hin Hne; simpl.
  - by apply elem_of_nil in Hin.
  - apply elem_of_cons in Hin as [[= <- <-] | Hin]; [|by apply IH].
    eapply (add_words_store_keep _ _ _ index).
    unfold add_word. destruct key; [done|]. simpl. by rewrite lookup_insert_eq.
Qed.

Lemma add_words_kind (ps : list (nat * str)) a :
  (kind a = EMPTY ∧ store a = ∅) ∨ kind a = TRIE →
  (kind (foldl step a ps) = EMPTY ∧ store (foldl step a ps) = ∅)
  ∨ kind (foldl step a ps) = TRIE.
Proof.
  revert a; induction ps as [|[i w] ps IH]; intros a H; simpl; [done|].
  apply IH. unfold add_word. destruct w as [|c w]; [done|]. simpl.
  destruct H as [[Hk Hs] | Hk].
  - right. by rewrite Hs, lookup_empty.
  - right. rewrite Hk. by destruct (store a !! _).
Qed.

Lemma actree_of_store wordlist key value :
  store (actree_of wordlist) !! key = Some value →
  ∃ index, value = (index, key) ∧ wordlist !! index = Some key ∧ key ≠ [].
Proof.
  unfold actree_of, make_automaton. intros H.
  assert (store (foldl step Automaton_new
                        (imap (λ index word, (index, word)) wordlist)) !! key
          = Some value) as H' by (by destruct (kind _)).
  apply add_words_store_inv in H' as [H' | (index & -> & Hin & Hne)]; [done|].
  apply elem_of_lookup_imap in Hin as (i & w & [= -> ->] & Hi). eauto.
Qed.

Lemma actree_of_mem wordlist key :
  key ∈ wordlist → key ≠ [] →
  kind (actree_of wordlist) = AHOCORASICK
  ∧ ∃ index, store (actree_of wordlist) !! key = Some (index, key).
Proof.
  intros Hin Hne. apply list_elem_of_lookup in Hin as [i Hi].
  assert ((i, key) ∈ imap (λ index word, (index, word)) wordlist) as Hmem.
  { apply elem_of_lookup_imap. eauto. }
  destruct (add_words_store_mem _ Automaton_new key i Hmem Hne) as [index' Hst].
  destruct (add_words_kind (imap (λ index word, (index, word)) wordlist) Automaton_new)
    as [[_ Hempty] | Hk]; [by left | |].
  - rewrite Hempty in Hst. done.
  - unfold actree_of, make_automaton. rewrite Hk. simpl. eauto.
Qed.

(** * Facts about dictionary loading *)

Lemma fields_nonempty line : ∃ standard_word rest, fields line = standard_word :: rest.
Proof.
  unfold fields. pose proof (Str.split_scan tab 0 (Str.strip line)) as l.
  pose proof (StrFacts.split_scan_nonempty tab 0 (Str.strip line)) as H.
  destruct (Str.split_scan tab 0 (Str.strip line)); [done | eauto].
Qed.

Lemma synonym_fields_run word_list standard_word flag self m n acc :
  (n + m = length word_list)%nat →
  for_each (seq n m) (synonym_field word_list standard_word flag) acc self
  = (Ok (foldl (register standard_word) acc
               (match_key (pinyin self) (splitter_symbol self) flag
                  <$> drop n word_list)), self).
Proof.
  revert n acc; induction m as [|m IH]; intros n acc Hlen; simpl.
  - rewrite drop_ge by lia. done.
  - destruct (lookup_lt_is_Some_2 word_list n) as [w Hw]; [lia|].
    rewrite (drop_S _ _ _ Hw), fmap_cons. simpl foldl.
    erewrite bind_run_Ok; [apply IH; lia|].
    unfold synonym_field, item. destruct acc as [d wl]. rewrite Hw.
    by destruct flag.
Qed.

Lemma synonym_line_run flag line acc self :
  synonym_line flag line acc self
  = (Ok (load_line (pinyin self) (splitter_symbol self) flag acc line), self).
Proof.
  unfold synonym_line, load_line.
  destruct (fields_nonempty line) as (standard_word & rest & Hf).
  unfold fields in *.
  erewrite bind_run_Ok; [|reflexivity].
  rewrite Hf. erewrite bind_run_Ok; [|reflexivity].
  rewrite synonym_fields_run by done. done.
Qed.

Lemma get_synonym_run file flag self :
  _get_synonym file flag self
  = (Ok (load_dict (pinyin self) (splitter_symbol self) flag file), self).
Proof.
  unfold _get_synonym, load_dict. generalize (∅ : gmap str str, [] : list str).
  induction file as [|line file IH]; intros acc; simpl; [done|].
  erewrite bind_run_Ok; [|apply synonym_line_run]. apply IH.
Qed.

Lemma init_run py file flag splitter :
  __init__ py file flag splitter = Ok (engine_of py file flag splitter).
Proof.
  unfold __init__.
  erewrite bind_run_Ok; [|reflexivity].
  erewrite bind_run_Ok; [|apply get_synonym_run]. simpl.
  destruct (load_dict py splitter flag file) as [d wl] eqn:Hload.
  unfold engine_of. rewrite Hload. done.
Qed.

Lemma elem_of_append_new `{EqDecision A} (l : list A) (x y : A) :
  y ∈ append_new l x ↔ y = x ∨ y ∈ l.
Proof.
  unfold append_new. case_bool_decide as Hx.
  - split; [by right | by intros [->|]].
  - rewrite elem_of_app, list_elem_of_singleton. tauto.
Qed.

(** The keys of the dictionary are the words of the word list. *)
Lemma load_dict_keys py splitter flag file key :
  is_Some ((load_dict py splitter flag file).1 !! key)
  ↔ key ∈ (load_dict py splitter flag file).2.
Proof.
  unfold load_dict.
  assert (is_Some ((∅ : gmap str str, [] : list str).1 !! key)
          ↔ key ∈ (∅ : gmap str str, [] : list str).2) as Hinit.
  { simpl. rewrite lookup_empty, elem_of_nil. split; [by intros [] | done]. }
  revert Hinit. generalize (∅ : gmap str str, [] : list str).
  induction file as [|line file IH]; intros acc Hacc; simpl; [done|].
  apply IH. unfold load_line.
  generalize (default [] (head (fields line))).
  revert acc Hacc.
  induction (match_key py splitter flag <$> fields line) as [|w ws IHw];
    intros acc Hacc standard_word; simpl; [done|].
  apply IHw. unfold register. simpl.
  rewrite elem_of_append_new, lookup_insert_is_Some.
  destruct (decide (w = key)) as [->|]; [tauto|]. rewrite Hacc.
  split; [intros [|[_ ?]]; [done | by right] | intros [|]; [done | by right]].
Qed.

(** Every field of every line is registered as a key, the first field
    included. *)
Lemma load_dict_registers py splitter flag file line word :
  line ∈ file → word ∈ fields line →
  is_Some ((load_dict py splitter flag file).1 !! match_key py splitter flag word).
Proof.
  set (key := match_key py splitter flag word).
  assert (∀ standard_word ws (acc : gmap str str * list str),
            is_Some (acc.1 !! key) →
            is_Some ((foldl (register standard_word) acc ws).1 !! key)) as Hkeep.
  { intros standard_word ws. induction ws as [|w ws IH]; intros acc H; simpl; [done|].
    apply IH. unfold register. simpl. apply lookup_insert_is_Some.
    destruct (decide (w = key)); [by left | by right]. }
  assert (∀ standard_word ws (acc : gmap str str * list str),
            key ∈ ws →
            is_Some ((foldl (register standard_word) acc ws).1 !! key)) as Hadd.
  { intros standard_word ws. induction ws as [|w ws IH]; intros acc H; simpl.
    - by apply elem_of_nil in H.
    - apply elem_of_cons in H as [<- | H]; [|by apply IH].
      apply Hkeep. unfold register. simpl. rewrite lookup_insert_eq. eauto. }
  unfold load_dict. generalize (∅ : gmap str str, [] : list str).
  induction file as [|line' file IH]; intros acc Hline Hword; simpl.
  - by apply elem_of_nil in Hline.
  - apply elem_of_cons in Hline as [<- | Hline]; [|by apply IH].
    assert (is_Some ((load_line py splitter flag acc line).1 !! key)) as H.
    { unfold load_line. apply Hadd. unfold key.
      apply list_elem_of_fmap. eauto. }
    clear IH. revert H. generalize (load_line py splitter flag acc line).
    induction file as [|line' file IH]; intros acc' H; simpl; [done|].
    apply IH. unfold load_line. by apply Hkeep.
Qed.



(** * Facts about [run] *)

(** The stages of a call of [run] that returns. *)
Lemma run_Ok_inv text_raw self update_text pairs names self' :
  run text_raw self = (Ok (update_text, pairs, names), self') →
  ∃ ac_match word_index_list del_index resolved standard_synonym,
    iter (ac_synonym self) (scanned_text self text_raw) = Ok ac_match
    ∧ for_each (seq 0 (length (keys_of ac_match)))
               (resolve_step (scanned_text self text_raw) (keys_of ac_match))
               ([], []) self
      = (Ok (word_index_list, del_index), self)
    ∧ pop_marked del_index word_index_list self = (Ok resolved, self)
    ∧ for_each resolved (substitute (normalize text_raw))
               (normalize text_raw, [], []) self
      = (Ok (update_text, standard_synonym, names), self)
    ∧ pairs = list_of_set standard_synonym
    ∧ self' = self.
Proof.
  intros Hrun.
  assert (self' = self) as ->.
  { pose proof (run_readonly text_raw self) as H. by rewrite Hrun in H. }
  unfold run in Hrun. fold (normalize text_raw) in Hrun.
  apply bind_Ok in Hrun as (flag & s1 & [= <- <-] & Hrun).
  apply bind_Ok in Hrun as (tt & s2 & Htt & Hrun).
  assert (tt = scanned_text self text_raw ∧ s2 = self) as [-> ->].
  { unfold scanned_text. destruct (use_pinyin self);
      unfold mbind, M_bind, read, mret, M_ret in Htt; by simplify_eq/=. }
  apply bind_Ok in Hrun as (actree & s3 & [= <- <-] & Hrun).
  apply bind_Ok in Hrun as (ac_match & s4 & [= Hiter <-] & Hrun).
  fold (keys_of ac_match) in Hrun.
  apply bind_Ok in Hrun as ([wil del] & s5 & Hres & Hrun).
  assert (s5 = self) as ->.
  { pose proof (readonly_for_each (seq 0 (length (keys_of ac_match)))
      (resolve_step (scanned_text self text_raw) (keys_of ac_match)) ([], [])
      (resolve_step_readonly _ _) self) as H. by rewrite Hres in H. }
  apply bind_Ok in Hrun as (resolved & s6 & Hpop & Hrun).
  assert (s6 = self) as ->.
  { pose proof (pop_marked_readonly del wil self) as H. by rewrite Hpop in H. }
  apply bind_Ok in Hrun as ([[u ss] sn] & s7 & Hsub & Hrun).
  assert (s7 = self) as ->.
  { pose proof (readonly_for_each resolved (substitute (normalize text_raw))
      (normalize text_raw, [], []) (substitute_readonly _) self) as H.
    by rewrite Hsub in H. }
  injection Hrun as <- <- <-.
  exists ac_match, wil, del, resolved, ss. done.
Qed.

(** A call whose scan finds nothing returns the normalised input. *)
Lemma run_no_match text_raw self :
  iter (ac_synonym self) (scanned_text self text_raw) = Ok [] →
  run text_raw self = (Ok (normalize text_raw, [], []), self).
Proof.
  intros Hiter. unfold run. fold (normalize text_raw).
  erewrite bind_run_Ok; [|reflexivity].
  erewrite (bind_run_Ok _ _ _ (scanned_text self text_raw) self);
    [|unfold scanned_text; by destruct (use_pinyin self)].
  erewrite bind_run_Ok; [|reflexivity].
  erewrite bind_run_Ok; [|unfold lift; by rewrite Hiter].
  done.
Qed.

(** An engine's automaton holds exactly the non-empty keys of its
    dictionary. *)
Lemma engine_store py file flag splitter key value :
  store (ac_synonym (engine_of py file flag splitter)) !! key = Some value →
  key ≠ [] ∧ (∃ index, value = (index, key))
  ∧ is_Some (synonym_dict (engine_of py file flag splitter) !! key).
Proof.
  simpl. intros (index & -> & Hidx & Hne)%actree_of_store.
  split_and!; [done | eauto |].
  apply load_dict_keys, list_elem_of_lookup. eauto.
Qed.

Lemma engine_compiled py file flag splitter key :
  is_Some (synonym_dict (engine_of py file flag splitter) !! key) →
  key ≠ [] →
  kind (ac_synonym (engine_of py file flag splitter)) = AHOCORASICK
  ∧ ∃ index, store (ac_synonym (engine_of py file flag splitter)) !! key
             = Some (index, key).
Proof.
  simpl. intros Hkey%load_dict_keys Hne. by apply actree_of_mem.
Qed.

(** ** The resolver *)

Lemma append_new_idem `{EqDecision A} (l : list A) (x : A) :
  append_new (append_new l x) x = append_new l x.
Proof.
  unfold append_new at 1. rewrite bool_decide_eq_true_2; [done|].
  apply elem_of_append_new. by left.
Qed.

Lemma mark_against_run ms i js del self :
  (i < length ms)%nat → Forall (λ j, (j < length ms)%nat) js →
  for_each js (mark_against ms i) del self
  = (Ok (if existsb (key_in_other ms i) js then append_new del i else del), self).
Proof.
  intros Hi Hjs. revert del; induction Hjs as [|j js Hj Hjs IH]; intros del; simpl.
  - done.
  - destruct (lookup_lt_is_Some_2 ms i Hi) as [ki Hki].
    destruct (lookup_lt_is_Some_2 ms j Hj) as [kj Hkj].
    assert (mark_against ms i j del self
            = (Ok (if key_in_other ms i j then append_new del i else del), self))
      as Hstep.
    { unfold mark_against, key_in_other, item. rewrite Hki, Hkj.
      destruct (negb (i =? j)%nat); simpl; [|done]. exec.
      by destruct (Str.contains ki kj). }
    rewrite (bind_run_Ok _ _ _ _ _ Hstep), IH.
    destruct (key_in_other ms i j); simpl; [|done].
    rewrite append_new_idem. by destruct (existsb _ js).
Qed.

Lemma resolve_loop_inv tt ms self m n wil del wil' del' self' :
  for_each (seq n m) (resolve_step tt ms) (wil, del) self
  = (Ok (wil', del'), self') →
  (n + m = length ms)%nat →
  Forall (λ i, (i < n)%nat) del →
  ∃ idxs,
    Forall2 (λ key idx, get_index tt key (use_pinyin self) self = (Ok idx, self))
            (drop n ms) idxs
    ∧ wil' = wil ++ idxs
    ∧ del' = del ++ filter (λ i, is_marked ms i = true) (seq n m).
Proof.
  revert n wil del; induction m as [|m IH]; intros n wil del Hrun Hlen Hdel;
    simpl in Hrun.
  - injection Hrun as <- <- <-. exists []. rewrite drop_ge by lia.
    rewrite !app_nil_r. split_and!; [constructor | done | done].
  - apply bind_Ok in Hrun as ([wil1 del1] & s1 & Hstep & Hrun).
    unfold resolve_step in Hstep.
    destruct (lookup_lt_is_Some_2 ms n) as [key Hkey]; [lia|].
    apply bind_Ok in Hstep as (key' & s2 & Hitem & Hstep).
    unfold lift, item in Hitem. rewrite Hkey in Hitem. injection Hitem as <- <-.
    apply bind_Ok in Hstep as (flag & s2 & [= <- <-] & Hstep).
    apply bind_Ok in Hstep as (idx & s2 & Hidx & Hstep).
    assert (s2 = self) as ->.
    { pose proof (get_index_readonly tt key (use_pinyin self) self) as H.
      by rewrite Hidx in H. }
    assert (n < length ms)%nat as Hn by lia.
    assert (Forall (λ j, (j < length ms)%nat) (seq 0 (length ms))) as Hjs
      by (apply Forall_seq; intros; lia).
    rewrite (bind_run_Ok _ _ _ _ _ (mark_against_run ms n _ del self Hn Hjs))
      in Hstep.
    injection Hstep as <- <- <-.
    apply IH in Hrun as (idxs & Hidxs & -> & ->); [|lia|].
    + exists (idx :: idxs). rewrite (drop_S _ _ _ Hkey).
      split_and!; [by constructor | by rewrite <- app_assoc |].
      simpl seq. fold (is_marked ms n). rewrite filter_cons.
      destruct (is_marked ms n) eqn:Hm.
      * rewrite decide_True by done. unfold append_new.
        rewrite bool_decide_eq_false_2.
        -- by rewrite <- app_assoc.
        -- intros Hin. rewrite Forall_forall in Hdel. apply Hdel in Hin. lia.
      * rewrite decide_False by done. done.
    + fold (is_marked ms n). destruct (is_marked ms n).
      * unfold append_new. case_bool_decide.
        -- eapply Forall_impl; [exact Hdel | simpl; intros; lia].
        -- apply Forall_app. split; [|repeat constructor; lia].
           eapply Forall_impl; [exact Hdel | simpl; intros; lia].
      * eapply Forall_impl; [exact Hdel | simpl; intros; lia].
Qed.

Lemma resolve_loop_literal tt ms self wil del self' :
  use_pinyin self = false →
  for_each (seq 0 (length ms)) (resolve_step tt ms) ([], []) self
  = (Ok (wil, del), self') →
  wil = literal_index tt <$> ms
  ∧ del = filter (λ i, is_marked ms i = true) (seq 0 (length ms)).
Proof.
  intros Hlit Hrun.
  apply resolve_loop_inv in Hrun as (idxs & Hidxs & -> & ->); [|done|constructor].
  split; [|done]. simpl. rewrite drop_0 in Hidxs.
  induction Hidxs as [|key idx ms' idxs' H1 H2 IH]; [done|].
  rewrite fmap_cons, <- IH. f_equal.
  rewrite Hlit in H1. by injection H1 as <-.
Qed.

(** Popping keeps what is left in its original order. *)
Lemma pop_marked_sublist {A} del (wil wil' : list A) self self' :
  pop_marked del wil self = (Ok wil', self') → wil' `sublist_of` wil.
Proof.
  unfold pop_marked. revert wil; induction del as [|i del IH]; intros wil H;
    simpl in H.
  - by injection H as <- <-.
  - apply bind_Ok in H as (wil1 & s1 & Hpop & H).
    unfold lift, pop in Hpop. case_decide; [|done]. injection Hpop as <- <-.
    apply IH in H. etrans; [exact H | apply sublist_delete].
Qed.

(** ** What the resolver marks, and what it pops *)

(** An occurrence is marked exactly when its key is a substring of the key
    of a distinct occurrence. *)
Lemma is_marked_spec ms i :
  is_marked ms i = true
  ↔ ∃ j key_i key_j, i ≠ j ∧ ms !! i = Some key_i ∧ ms !! j = Some key_j
                     ∧ ∃ l r, key_j = l ++ key_i ++ r.
Proof.
  unfold is_marked. rewrite existsb_exists. split.
  - intros (j & _ & H). unfold key_in_other in H.
    apply andb_true_iff in H as [Hij H].
    apply negb_true_iff, Nat.eqb_neq in Hij.
    destruct (ms !! i) as [ki|] eqn:Hi; [|done].
    destruct (ms !! j) as [kj|] eqn:Hj; [|done].
    apply StrFacts.contains_spec in H. eauto 10.
  - intros (j & ki & kj & Hij & Hi & Hj & Hsub). exists j. split.
    + apply in_seq. apply lookup_lt_Some in Hj. lia.
    + unfold key_in_other. rewrite Hi, Hj.
      apply andb_true_iff. split.
      * by apply negb_true_iff, Nat.eqb_neq.
      * by apply StrFacts.contains_spec.
Qed.

(** The resolver marks, in ascending order, exactly the occurrences it has
    to discard, and records the offsets of every occurrence. *)
Lemma resolver_marks tt ms self wil del self' :
  for_each (seq 0 (length ms)) (resolve_step tt ms) ([], []) self
  = (Ok (wil, del), self') →
  del = filter (λ i, is_marked ms i = true) (seq 0 (length ms))
  ∧ wil.*2 = ms.
Proof.
  intros (idxs & Hidxs & -> & ->)%resolve_loop_inv; [|done|constructor].
  split; [done|]. simpl. rewrite drop_0 in Hidxs.
  induction Hidxs as [|key idx ms' idxs' H1 H2 IH]; [done|].
  rewrite fmap_cons, IH. f_equal.
  unfold get_index in H1. destruct (use_pinyin self).
  - apply bind_Ok in H1 as (sp & s1 & _ & H1).
    apply bind_Ok in H1 as (toks & s2 & _ & H1).
    apply bind_Ok in H1 as (segs & s3 & _ & H1).
    by injection H1 as <- _.
  - by injection H1 as <-.
Qed.

(** Every occurrence of a key that occurs twice is marked. *)
Lemma repeated_key_marked ms i j key :
  i ≠ j → ms !! i = Some key → ms !! j = Some key → is_marked ms i = true.
Proof.
  intros Hij Hi Hj. apply is_marked_spec. exists j, key, key.
  split_and!; [done | done | done |]. exists [], []. by rewrite app_nil_r.
Qed.

(** With at most one mark the pops remove what was marked. *)
Lemma pop_marked_single {A} (wil : list A) i self :
  (i < length wil)%nat →
  pop_marked [i] wil self = (Ok (delete i wil), self).
Proof.
  intros Hi. unfold pop_marked. simpl. exec. unfold pop.
  by rewrite decide_True by done.
Qed.

(** When exactly one occurrence is marked, the pops discard it and keep
    the others in scan order; when none is, nothing is discarded. *)
Lemma resolver_single_mark tt ms self wil del self' i :
  for_each (seq 0 (length ms)) (resolve_step tt ms) ([], []) self
  = (Ok (wil, del), self') →
  filter (λ i, is_marked ms i = true) (seq 0 (length ms)) = [i] →
  pop_marked del wil self = (Ok (delete i wil), self)
  ∧ (delete i wil).*2 = delete i ms.
Proof.
  intros [-> Hkeys]%resolver_marks Hone. rewrite Hone.
  assert (i ∈ filter (λ i, is_marked ms i = true) (seq 0 (length ms))) as Hi
    by (rewrite Hone; left).
  apply list_elem_of_filter in Hi as [_ Hi%elem_of_seq].
  split.
  - apply pop_marked_single. rewrite <- Hkeys, length_fmap in Hi. lia.
  - by rewrite list_fmap_delete, Hkeys.
Qed.

Lemma resolver_no_mark tt ms self wil del self' :
  for_each (seq 0 (length ms)) (resolve_step tt ms) ([], []) self
  = (Ok (wil, del), self') →
  filter (λ i, is_marked ms i = true) (seq 0 (length ms)) = [] →
  pop_marked del wil self = (Ok wil, self) ∧ wil.*2 = ms.
Proof.
  intros [-> Hkeys]%resolver_marks Hnone. rewrite Hnone. done.
Qed.

(** ** The offsets *)

(** In phonetic mode the start is the number of [@@]-separated segments
    before the first occurrence of the key, and the end adds the number of
    tokens of the key, counted with the configured delimiter. *)
Lemma get_index_phonetic text key self :
  splitter_symbol self ≠ [] →
  get_index text key true self
  = (Ok (Z.of_nat (length (Str.split_scan at_at 0
                             (Str.slice_to text (Str.find text key)))) - 1,
         Z.of_nat (length (Str.split_scan at_at 0
                             (Str.slice_to text (Str.find text key)))) - 1
         + Z.of_nat (length (Str.split_scan (splitter_symbol self) 0 key)),
         key), self).
Proof.
  intros Hsp. unfold get_index, Str.split. exec.
  by destruct (splitter_symbol self).
Qed.

(** In literal mode the offsets are those of the first occurrence. *)
Lemma get_index_literal text key self :
  get_index text key false self = (Ok (literal_index text key), self).
Proof. done. Qed.

(** ** The substitution loop *)

Lemma substitute_Ok_inv text_raw start_index end_index key u ss sn self u' ss' sn' self' :
  substitute text_raw (start_index, end_index, key) (u, ss, sn) self
  = (Ok (u', ss', sn'), self') →
  ∃ standard_name,
    synonym_dict self !! key = Some standard_name
    ∧ u' = Str.replace u (Str.slice text_raw start_index end_index) standard_name
    ∧ ss' = ss ++ [(standard_name, key)]
    ∧ sn' = append_new sn standard_name
    ∧ self' = self.
Proof.
  unfold substitute, getitem. exec.
  destruct (synonym_dict self !! key) as [c|]; [|done].
  intros [= <- <- <- <-]. eauto 10.
Qed.

(** The pairs and names a run of the loop emits: one pair per resolved
    match, in order, and each new name appended once. *)
Lemma substitute_loop_pairs text_raw resolved u ss sn self u' ss' sn' self' :
  for_each resolved (substitute text_raw) (u, ss, sn) self
  = (Ok (u', ss', sn'), self') →
  ∃ emitted,
    ss' = ss ++ emitted
    ∧ sn' = foldl append_new sn emitted.*1
    ∧ emitted.*2 = resolved.*2
    ∧ Forall (λ p, synonym_dict self !! p.2 = Some p.1) emitted.
Proof.
  revert u ss sn; induction resolved as [|[[s e] key] resolved IH];
    intros u ss sn H; simpl in H.
  - injection H as <- <- <- <-. exists []. by rewrite app_nil_r.
  - apply bind_Ok in H as ([[u1 ss1] sn1] & s1 & Hstep & H).
    apply substitute_Ok_inv in Hstep as (c & Hc & -> & -> & -> & ->).
    apply IH in H as (emitted & -> & -> & Hkeys & Hall).
    exists ((c, key) :: emitted). rewrite <- app_assoc.
    split_and!; [done | done | by rewrite !fmap_cons, Hkeys | by constructor].
Qed.


(** ** Deduplication *)

Lemma first_seen_filter (P : str → Prop) `{!∀ x, Decision (P x)} l :
  first_seen (filter P l) = filter P (first_seen l).
Proof.
  induction l as [|x l IH]; [done|]. simpl first_seen.
  destruct (decide (P x)) as [HP|HP].
  - rewrite !filter_cons_True by done. simpl. rewrite IH.
    f_equal. rewrite !list_filter_filter. apply list_filter_iff. tauto.
  - rewrite !filter_cons_False by done. rewrite IH.
    rewrite list_filter_filter. apply list_filter_iff.
    intros y. split; [|tauto]. intros Hy. split; [done | congruence].
Qed.

Lemma foldl_append_new acc l :
  foldl append_new acc l = acc ++ first_seen (filter (λ x, x ∉ acc) l).
Proof.
  revert acc; induction l as [|x l IH]; intros acc; simpl.
  - by rewrite app_nil_r.
  - rewrite IH. unfold append_new. case_bool_decide as Hx.
    + by rewrite filter_cons_False by tauto.
    + rewrite filter_cons_True by done. simpl. rewrite <- app_assoc. simpl.
      do 2 f_equal. rewrite <- first_seen_filter, list_filter_filter.
      f_equal. apply list_filter_iff. intros y.
      rewrite not_elem_of_app, list_elem_of_singleton. tauto.
Qed.

(** Appending each name unless it is there already keeps the first
    occurrence of every name, in order. *)
Lemma foldl_append_new_first_seen l : foldl append_new [] l = first_seen l.
Proof.
  rewrite foldl_append_new. simpl. f_equal.
  induction l as [|x l IH]; [done|].
  rewrite filter_cons_True by apply not_elem_of_nil. by rewrite IH.
Qed.

Lemma first_seen_NoDup l : NoDup (first_seen l).
Proof.
  induction l as [|y l IH]; simpl; constructor.
  - rewrite list_elem_of_filter. tauto.
  - by apply NoDup_filter.
Qed.

Lemma list_of_set_spec l :
  NoDup (list_of_set l) ∧ ∀ p, p ∈ list_of_set l ↔ p ∈ l.
Proof.
  unfold list_of_set. split; [apply NoDup_elements|].
  intros p. by rewrite elem_of_elements, elem_of_list_to_set.
Qed.

(** The scenarios of the specification: with the record 招商银行 <- 招行,
    招商银行 in literal mode, 去农行还是招行 is corrected to
    去农行还是招商银行; with the record 招商银行 <- 招行 in phonetic mode, 去找行
    is corrected to 去招商银行. *)
Example run_literal_scenario :
  (run [21435; 20892; 34892; 36824; 26159; 25307; 34892]%N
       (engine_of (table_pinyin syllables)
          [zhaoshang_yinhang ++ tab ++ zhaohang ++ tab ++ zhaoshang_yinhang ++ newline]
          false at_at)).1
  = Ok ([21435; 20892; 34892; 36824; 26159]%N ++ zhaoshang_yinhang,
        [(zhaoshang_yinhang, zhaohang)], [zhaoshang_yinhang]).
Proof. by vm_compute. Qed.

Example run_phonetic_scenario :
  (run qu_zhaohang_typo (engine_of (table_pinyin syllables) zhaohang_file true at_at)).1
  = Ok (21435%N :: zhaoshang_yinhang,
        [(zhaoshang_yinhang, lit "zhao@@hang")], [zhaoshang_yinhang]).
Proof. by vm_compute. Qed.

(** * The claims *)

(** C9: [run] leaves the engine's state unchanged: the synonym dictionary,
    the compiled automaton, the delimiter and the phonetic-mode flag are the
    same after the call as before it, whether it returns or raises, so a
    later call on the same engine sees the same compiled state. *)
Theorem run_preserves_engine (text_raw : str) (self : EntityCorrect) :
  let self' := (run text_raw self).2 in
  synonym_dict self' = synonym_dict self
  ∧ ac_synonym self' = ac_synonym self
  ∧ splitter_symbol self' = splitter_symbol self
  ∧ use_pinyin self' = use_pinyin self
  ∧ self' = self
  ∧ ∀ text, run text self' = run text self.
Proof.
  intros self'. assert (self' = self) as -> by apply run_readonly. done.
Qed.

(** What [run] does with the reports of the scan: the key of every report,
    in scan order, goes into [match_synonym], on which the rest of [run]
    works; a scan that raises ends the call. *)
Lemma run_scan text_raw self :
  run text_raw self
  = match iter (ac_synonym self) (scanned_text self text_raw) with
    | Ok ac_match =>
        resolve_and_substitute (normalize text_raw) (scanned_text self text_raw)
                               (keys_of ac_match) self
    | Raise x => (Raise x, self)
    end.
Proof.
  unfold run, resolve_and_substitute, scanned_text, normalize, keys_of.
  destruct self as [py splitter flag d a]. exec.
  destruct flag; exec; by destruct (iter a _).
Qed.

(** C2, as the code has it: in the text that [run] scans, the scan reports
    every occurrence of every non-empty MatchKey of the dictionary,
    wherever it starts: an occurrence of [key] at index [i] has a report of
    its own, with the index of its last character, and [run] hands the keys
    of all the reports, this one among them, to the resolver, dropping
    none.  Occurrences nested in or overlapping other occurrences are not
    exempt.  The empty key is never among the keys reported. *)
Theorem scan_reports_every_occurrence
    (py : Pinyin) (file : list str) (flag : bool) (splitter : str)
    (self : EntityCorrect) (text_raw key : str) (i : nat) :
  __init__ py file flag splitter = Ok self →
  is_Some (synonym_dict self !! key) →
  key ≠ [] →
  occurs_at key (scanned_text self text_raw) i →
  ∃ ac_match index position,
    iter (ac_synonym self) (scanned_text self text_raw) = Ok ac_match
    ∧ ac_match !! position = Some ((i + length key - 1)%nat, (index, key))
    ∧ keys_of ac_match !! position = Some key
    ∧ run text_raw self
      = resolve_and_substitute (normalize text_raw) (scanned_text self text_raw)
                               (keys_of ac_match) self
    ∧ Forall (λ word_match, word_match ≠ []) (keys_of ac_match).
Proof.
  rewrite init_run. intros [= <-] Hkey Hne Hocc.
  destruct (engine_compiled _ _ _ _ _ Hkey Hne) as [Hkind [index Hstore]].
  destruct (iter_complete _ _ _ _ _ Hkind Hstore Hne Hocc) as (ac_match & Hiter & Hin).
  apply list_elem_of_lookup in Hin as [position Hpos].
  exists ac_match, index, position. split_and!; [done | done | | |].
  - unfold keys_of. by rewrite list_lookup_fmap, Hpos.
  - by rewrite run_scan, Hiter.
  - apply Forall_forall. intros word Hword. unfold keys_of in Hword.
    apply list_elem_of_fmap in Hword as ([e [idx w]] & -> & Hword).
    destruct (iter_sound _ _ _ _ _ Hiter Hword) as (k & Hk & _ & _).
    by apply engine_store in Hk as (? & [index' [= -> ->]] & _).
Qed.

(** The keys [ab] and [b] and the input [x ab]: the [b] inside [ab], at
    index 2 of the scanned text [xab], is reported, and [run] goes on with
    the keys of both reports. *)
Lemma scan_reports_every_occurrence_witness :
  let self := engine_of (table_pinyin syllables) [lit "ab"; lit "b"] false at_at in
  ∃ ac_match index position,
    iter (ac_synonym self) (scanned_text self (lit "x ab")) = Ok ac_match
    ∧ ac_match !! position = Some (2%nat, (index, lit "b"))
    ∧ keys_of ac_match !! position = Some (lit "b")
    ∧ run (lit "x ab") self
      = resolve_and_substitute (normalize (lit "x ab"))
                               (scanned_text self (lit "x ab"))
                               (keys_of ac_match) self
    ∧ Forall (λ word_match, word_match ≠ []) (keys_of ac_match).
Proof.
  apply (scan_reports_every_occurrence
           (table_pinyin syllables) [lit "ab"; lit "b"] false at_at _
           (lit "x ab") (lit "b") 2).
  - apply init_run.
  - eexists. vm_compute. reflexivity.
  - done.
  - exists (lit "xa"), []. done.
Defined.

(** C2, as stated, fails for the empty MatchKey: a blank line of the
    synonym file registers the empty string in the dictionary and in the
    word list, the automaton does not store it, and the scan never reports
    it, although it occurs at every index of every text. *)
Lemma scan_misses_empty_key :
  ∃ self ac_match,
    __init__ (table_pinyin syllables) [lit "A	a"; newline] false at_at = Ok self
    ∧ is_Some (synonym_dict self !! [])
    ∧ occurs_at [] (scanned_text self (lit "a")) 0
    ∧ iter (ac_synonym self) (scanned_text self (lit "a")) = Ok ac_match
    ∧ ac_match = [(0%nat, (1%nat, lit "a"))]
    ∧ ([] ∉ keys_of ac_match)
    ∧ (run (lit "a") self).1 = Ok (lit "A", [(lit "A", lit "a")], [lit "A"]).
Proof.
  exists (engine_of (table_pinyin syllables) [lit "A	a"; newline] false at_at),
         [(0%nat, (1%nat, lit "a"))].
  split; [apply init_run|]. split_and!.
  - eexists. by vm_compute.
  - by exists [], (lit "a").
  - by vm_compute.
  - done.
  - apply (bool_decide_unpack _). by vm_compute.
  - by vm_compute.
Qed.

(** C6, as the code has it: for every dictionary with at least one
    non-empty MatchKey and every input text in whose scanned form no
    MatchKey occurs, [run] returns the whitespace-normalised input as the
    corrected text, with no pairs and no canonical names, and does not
    raise. *)
Theorem run_without_match
    (py : Pinyin) (file : list str) (flag : bool) (splitter : str)
    (self : EntityCorrect) (text_raw : str) :
  __init__ py file flag splitter = Ok self →
  (∃ key, key ≠ [] ∧ is_Some (synonym_dict self !! key)) →
  (∀ key, is_Some (synonym_dict self !! key) → key ≠ [] →
          ¬ occurs key (scanned_text self text_raw)) →
  run text_raw self = (Ok (normalize text_raw, [], []), self).
Proof.
  rewrite init_run. intros [= <-] (key0 & Hne0 & Hkey0) Hno.
  apply run_no_match, iter_nothing.
  - by destruct (engine_compiled _ _ _ _ _ Hkey0 Hne0).
  - intros key [value Hkey] Hne.
    apply engine_store in Hkey as (_ & _ & Hkey). by apply Hno.
Qed.

(** The dictionary [CMB\tzh] and the text [go to abc], and the empty
    text. *)
Lemma run_without_match_witness :
  run (lit "go to abc") (engine_of (table_pinyin syllables) [lit "CMB	zh"] false at_at)
  = (Ok (lit "gotoabc", [], []),
     engine_of (table_pinyin syllables) [lit "CMB	zh"] false at_at)
  ∧ run [] (engine_of (table_pinyin syllables) [lit "CMB	zh"] false at_at)
    = (Ok ([], [], []),
       engine_of (table_pinyin syllables) [lit "CMB	zh"] false at_at).
Proof.
  assert (∀ text, Str.contains (lit "CMB") text = false →
                  Str.contains (lit "zh") text = false →
                  ∀ key, is_Some (synonym_dict (engine_of (table_pinyin syllables)
                                    [lit "CMB	zh"] false at_at) !! key) →
                         key ≠ [] → ¬ occurs key text) as Hkeys.
  { intros text H1 H2 key Hkey _ Hocc%StrFacts.contains_occurs.
    apply load_dict_keys in Hkey. vm_compute in Hkey.
    apply elem_of_cons in Hkey as [-> | Hkey].
    { change (Str.contains (lit "CMB") text = true) in Hocc. congruence. }
    apply elem_of_cons in Hkey as [-> | Hkey].
    { change (Str.contains (lit "zh") text = true) in Hocc. congruence. }
    by apply elem_of_nil in Hkey. }
  split.
  - apply (run_without_match (table_pinyin syllables) [lit "CMB	zh"] false at_at).
    + apply init_run.
    + exists (lit "zh"). split; [done|]. eexists. vm_compute. reflexivity.
    + by apply Hkeys.
  - apply (run_without_match (table_pinyin syllables) [lit "CMB	zh"] false at_at _ []).
    + apply init_run.
    + exists (lit "zh"). split; [done|]. eexists. vm_compute. reflexivity.
    + by apply Hkeys.
Defined.

(** C6, as stated, fails for the empty dictionary: no MatchKey occurs in
    any text, yet [run] raises, because an automaton without words cannot be
    scanned. *)
Lemma run_empty_dictionary_raises :
  ∃ self,
    __init__ (table_pinyin syllables) [] false at_at = Ok self
    ∧ (∀ key, ¬ is_Some (synonym_dict self !! key))
    ∧ (run (lit "x") self).1 = Raise AttributeError
    ∧ (run [] self).1 = Raise AttributeError.
Proof.
  eexists. split; [apply init_run|]. split_and!.
  - intros key [v Hv]. change ((∅ : gmap str str) !! key = Some v) in Hv.
    by rewrite lookup_empty in Hv.
  - reflexivity.
  - reflexivity.
Qed.

(** C4, as the code has it: dictionary construction never fails; for every
    synonym file, mode and delimiter it returns an engine, also when some
    record has zero variants, and in that engine every field of every
    record, the canonical name included, is a MatchKey. *)
Theorem init_never_fails
    (py : Pinyin) (file : list str) (flag : bool) (splitter : str) :
  ∃ self,
    __init__ py file flag splitter = Ok self
    ∧ ∀ line word, line ∈ file → word ∈ fields line →
        is_Some (synonym_dict self !! match_key py splitter flag word).
Proof.
  eexists. split; [apply init_run|]. intros line word Hline Hword.
  by eapply load_dict_registers.
Qed.

(** C4, as stated, fails: the dictionary whose first record is the
    canonical name 农业银行 with no variants is accepted; an engine is
    returned, in which that name is a MatchKey for itself. *)
Lemma init_accepts_record_without_variants :
  ∃ self,
    __init__ (table_pinyin syllables) bank_file false at_at = Ok self
    ∧ fields (nongye_yinhang ++ newline) = [nongye_yinhang]
    ∧ synonym_dict self !! nongye_yinhang = Some nongye_yinhang
    ∧ synonym_dict self !! zhaohang = Some zhaoshang_yinhang.
Proof.
  eexists. split; [apply init_run|]. split_and!; by vm_compute.
Qed.

(** Every occurrence of [old] in [s], left to right, is replaced: the text
    is a sequence of pieces separated by [old], and the result is the same
    pieces separated by [new].  For a non-empty [old] no piece holds a
    further occurrence of it; an empty [old] separates all the characters
    and stands before the first and after the last. *)
Lemma replace_everywhere s old new :
  ∃ pieces,
    s = Str.join old pieces
    ∧ Str.replace s old new = Str.join new pieces
    ∧ (old ≠ [] → Forall (λ piece, ¬ occurs old piece) pieces)
    ∧ (old = [] → pieces = [] :: ((λ c, [c]) <$> s) ++ [[]]).
Proof.
  destruct old as [|a old'].
  - exists ([] :: ((λ c, [c]) <$> s) ++ [[]]). split_and!; [| |done|done].
    + change (s = Str.join [] ([] :: (((λ c, [c]) <$> s) ++ [[]]))).
      assert (∀ l : list str, Str.join [] ([] :: l) = Str.join [] l) as ->.
      { by intros [|??]. }
      rewrite StrFacts.join_singletons. induction s as [|c s IH]; [done|].
      simpl. by rewrite <- IH.
    + unfold Str.replace. rewrite <- StrFacts.join_singletons. by destruct s.
  - destruct (StrFacts.replace_pieces s (a :: old') new) as (pieces & H1 & H2 & H3).
    exists pieces. split_and!; [done | done | | done].
    intros Hne. eapply Forall_impl; [exact (H3 Hne)|]. simpl.
    intros piece Hp Hocc%StrFacts.contains_occurs. congruence.
Qed.

(** The texts that the substitution loop goes through: one replacement for
    each resolved match, in order. *)
Lemma substitute_loop_texts text_raw resolved u ss sn self u' ss' sn' self' :
  for_each resolved (substitute text_raw) (u, ss, sn) self
  = (Ok (u', ss', sn'), self') →
  ∃ texts,
    length texts = S (length resolved)
    ∧ head texts = Some u
    ∧ last texts = Some u'
    ∧ ∀ k start_index end_index key,
        resolved !! k = Some (start_index, end_index, key) →
        ∃ before standard_name,
          texts !! k = Some before
          ∧ texts !! S k
            = Some (Str.replace before (Str.slice text_raw start_index end_index)
                                standard_name)
          ∧ synonym_dict self !! key = Some standard_name.
Proof.
  revert u ss sn. induction resolved as [|[[s e] key] rest IH]; intros u ss sn H.
  - injection H as <- _ _ _. exists [u]. split_and!; [done..|]. by intros [|k].
  - cbn [for_each] in H.
    apply bind_Ok in H as ([[u1 ss1] sn1] & self1 & Hstep & Hrest).
    apply substitute_Ok_inv in Hstep as (c & Hc & -> & _ & _ & ->).
    destruct (IH _ _ _ Hrest) as (texts & Hlen & Hhead & Hlast & Hsteps).
    exists (u :: texts). split_and!.
    + simpl. by rewrite Hlen.
    + done.
    + rewrite last_cons, Hlast. done.
    + intros [|k] s' e' key' Hk.
      * injection Hk as -> -> ->. exists u, c. split_and!; [done | | done].
        simpl. by rewrite <- head_lookup.
      * simpl in Hk. destruct (Hsteps _ _ _ _ Hk) as (before & c' & ? & ? & ?).
        by exists before, c'.
Qed.

(** C5: for every resolved match, in the order of the matches that the
    resolver leaves, [run] replaces, by a find and replace over the whole of
    the text corrected so far, the literal cut out of the normalised input
    at the match's offsets: the text before the step is a sequence of
    pieces separated by that literal, none of which holds a further
    occurrence of it, and the text after the step is the same pieces
    separated by the canonical name, so every occurrence is replaced and
    not only the one at the match's span.  (An empty literal separates all
    the characters.)  The first text is the normalised input, the last is
    the corrected text that [run] returns. *)
Theorem substitute_replaces_everywhere
    (text_raw : str) (self : EntityCorrect) (update_text : str)
    (pairs : list (str * str)) (names : list str) (self' : EntityCorrect) :
  run text_raw self = (Ok (update_text, pairs, names), self') →
  ∃ ac_match word_index_list del_index resolved texts,
    iter (ac_synonym self) (scanned_text self text_raw) = Ok ac_match
    ∧ for_each (seq 0 (length (keys_of ac_match)))
               (resolve_step (scanned_text self text_raw) (keys_of ac_match))
               ([], []) self
      = (Ok (word_index_list, del_index), self)
    ∧ pop_marked del_index word_index_list self = (Ok resolved, self)
    ∧ length texts = S (length resolved)
    ∧ head texts = Some (normalize text_raw)
    ∧ last texts = Some update_text
    ∧ ∀ k start_index end_index synonym,
        resolved !! k = Some (start_index, end_index, synonym) →
        let literal := Str.slice (normalize text_raw) start_index end_index in
        ∃ before after standard_name pieces,
          texts !! k = Some before
          ∧ texts !! S k = Some after
          ∧ synonym_dict self !! synonym = Some standard_name
          ∧ after = Str.replace before literal standard_name
          ∧ before = Str.join literal pieces
          ∧ after = Str.join standard_name pieces
          ∧ (literal ≠ [] → Forall (λ piece, ¬ occurs literal piece) pieces)
          ∧ (literal = [] → pieces = [] :: ((λ c, [c]) <$> before) ++ [[]]).
Proof.
  intros Hrun.
  apply run_Ok_inv in Hrun
    as (ac_match & wil & del & resolved & ss & Hiter & Hres & Hpop & Hsub & _ & _).
  apply substitute_loop_texts in Hsub as (texts & Hlen & Hhead & Hlast & Hsteps).
  exists ac_match, wil, del, resolved, texts. split_and!; [done..|].
  intros k s e key Hk literal.
  destruct (Hsteps _ _ _ _ Hk) as (before & c & Hbefore & Hafter & Hc).
  destruct (replace_everywhere before literal c) as (pieces & H1 & H2 & H3 & H4).
  exists before, (Str.replace before literal c), c, pieces. done.
Qed.

(** The entries [A <- a], [B <- b] and the input [aab]: the resolver leaves
    one match, the second report of [a], with the offsets 0 and 1 of the
    first [a]; the one replacement turns both [a] into [A]. *)
Lemma substitute_replaces_everywhere_witness :
  let self := engine_of (table_pinyin syllables) [lit "A	a"; lit "B	b"] false at_at in
  (run (lit "aab") self).1 = Ok (lit "AAb", [(lit "A", lit "a")], [lit "A"])
  ∧ ∃ ac_match word_index_list del_index resolved texts,
      iter (ac_synonym self) (scanned_text self (lit "aab")) = Ok ac_match
      ∧ for_each (seq 0 (length (keys_of ac_match)))
                 (resolve_step (scanned_text self (lit "aab")) (keys_of ac_match))
                 ([], []) self
        = (Ok (word_index_list, del_index), self)
      ∧ pop_marked del_index word_index_list self = (Ok resolved, self)
      ∧ length texts = S (length resolved)
      ∧ head texts = Some (normalize (lit "aab"))
      ∧ last texts = Some (lit "AAb")
      ∧ ∀ k start_index end_index synonym,
          resolved !! k = Some (start_index, end_index, synonym) →
          let literal := Str.slice (normalize (lit "aab")) start_index end_index in
          ∃ before after standard_name pieces,
            texts !! k = Some before
            ∧ texts !! S k = Some after
            ∧ synonym_dict self !! synonym = Some standard_name
            ∧ after = Str.replace before literal standard_name
            ∧ before = Str.join literal pieces
            ∧ after = Str.join standard_name pieces
            ∧ (literal ≠ [] → Forall (λ piece, ¬ occurs literal piece) pieces)
            ∧ (literal = [] → pieces = [] :: ((λ c, [c]) <$> before) ++ [[]]).
Proof.
  split; [by vm_compute|].
  apply (substitute_replaces_everywhere (lit "aab")
           (engine_of (table_pinyin syllables) [lit "A	a"; lit "B	b"] false at_at)
           (lit "AAb") [(lit "A", lit "a")] [lit "A"]
           (engine_of (table_pinyin syllables) [lit "A	a"; lit "B	b"] false at_at)).
  vm_compute. reflexivity.
Defined.



(** C1 (defect): with the entries [A <- a], [AB <- ab], [B <- b], [C <- c]
    and the text [abc], the scan reports [a], [ab], [b], [c]; the
    occurrences to discard are those at 0 and 2 ([a] and [b], both
    substrings of [ab]).  The pops take position 0 and then position 2 of
    the list already shortened, which held [c]: the result keeps [b] and
    drops [c], and the corrected text is [ABc] with names [AB], [B] and the
    pairs of [ab] and [b], where discarding the marked occurrences gives
    [ABC] with names [AB], [C]. *)
Theorem resolver_pops_shifted_positions :
  ∃ self ac_match word_index_list,
    __init__ (table_pinyin syllables)
             [lit "A	a"; lit "AB	ab"; lit "B	b"; lit "C	c"] false at_at
    = Ok self
    ∧ iter (ac_synonym self) (lit "abc") = Ok ac_match
    ∧ keys_of ac_match = [lit "a"; lit "ab"; lit "b"; lit "c"]
    ∧ (for_each (seq 0 4) (resolve_step (lit "abc") (keys_of ac_match))
                ([], []) self).1
      = Ok (word_index_list, [0; 2]%nat)
    ∧ word_index_list.*2 = [lit "a"; lit "ab"; lit "b"; lit "c"]
    ∧ filter (λ i, is_marked (keys_of ac_match) i = true) (seq 0 4) = [0; 2]%nat
    ∧ (pop_marked [0; 2]%nat word_index_list self).1
      = Ok [(0, 2, lit "ab"); (1, 2, lit "b")]
    ∧ ∃ pairs,
        (run (lit "abc") self).1 = Ok (lit "ABc", pairs, [lit "AB"; lit "B"])
        ∧ pairs ≡ₚ [(lit "AB", lit "ab"); (lit "B", lit "b")].
Proof.
  eexists _, _, _. split; [apply init_run|].
  split; [by vm_compute|]. split_and!; try by vm_compute.
  eexists. split; [by vm_compute|]. apply Permutation_swap.
Qed.

(** C10 (defect): with the entries [A <- a], [B <- b] and the text [aab],
    the key [a] occurs twice and both occurrences are marked, at 0 and 1.
    The pops take position 0 and then position 1 of the shortened list,
    which held [b]: the second occurrence of [a] survives and is corrected,
    and [b] is dropped.  On the text [aa] the second pop is out of range and
    [run] raises. *)
Theorem repeated_key_survives_pops :
  ∃ self ac_match,
    __init__ (table_pinyin syllables) [lit "A	a"; lit "B	b"] false at_at = Ok self
    ∧ iter (ac_synonym self) (lit "aab") = Ok ac_match
    ∧ keys_of ac_match = [lit "a"; lit "a"; lit "b"]
    ∧ filter (λ i, is_marked (keys_of ac_match) i = true) (seq 0 3) = [0; 1]%nat
    ∧ (pop_marked [0; 1]%nat
                  [literal_index (lit "aab") (lit "a");
                   literal_index (lit "aab") (lit "a");
                   literal_index (lit "aab") (lit "b")] self).1
      = Ok [literal_index (lit "aab") (lit "a")]
    ∧ (run (lit "aab") self).1
      = Ok (lit "AAb", [(lit "A", lit "a")], [lit "A"])
    ∧ (run (lit "aa") self).1 = Raise IndexError.
Proof.
  eexists _, _. split; [apply init_run|].
  split; [by vm_compute|]. split_and!; by vm_compute.
Qed.

(** C3 (defect): the segments before the match are counted by splitting at
    the fixed string [@@], not at the configured delimiter.  With the
    delimiter [-], the dictionary 招商银行 <- 招行 and the input 去找行, the
    scanned text is [qu-zhao-hang] and the key [zhao-hang] starts after one
    segment, [qu]; [get_index] returns start 0 and end 2, and [run] replaces
    去找 instead of 找行.  With the default delimiter the offsets are 1 and 3
    and the input is corrected to 去招商银行. *)
Theorem get_index_ignores_configured_delimiter :
  let dash := engine_of (table_pinyin syllables) zhaohang_file true (lit "-") in
  let default := engine_of (table_pinyin syllables) zhaohang_file true at_at in
  scanned_text dash qu_zhaohang_typo = lit "qu-zhao-hang"
  ∧ Str.find (lit "qu-zhao-hang") (lit "zhao-hang") = 3
  ∧ Str.split (Str.slice_to (lit "qu-zhao-hang") 3) (splitter_symbol dash)
    = Ok [lit "qu"; []]
  ∧ (get_index (lit "qu-zhao-hang") (lit "zhao-hang") true dash).1
    = Ok (0, 2, lit "zhao-hang")
  ∧ (run qu_zhaohang_typo dash).1
    = Ok (zhaoshang_yinhang ++ [34892%N],
          [(zhaoshang_yinhang, lit "zhao-hang")], [zhaoshang_yinhang])
  ∧ (get_index (lit "qu@@zhao@@hang") (lit "zhao@@hang") true default).1
    = Ok (1, 3, lit "zhao@@hang")
  ∧ (run qu_zhaohang_typo default).1
    = Ok (21435%N :: zhaoshang_yinhang,
          [(zhaoshang_yinhang, lit "zhao@@hang")], [zhaoshang_yinhang]).
Proof.
  split_and!; by vm_compute.
Qed.


(** * Further properties of the code *)

(** ** Offsets: [get_index] *)

Lemma find_is_first text key start :
  occurs_at key text start →
  (∀ i, occurs_at key text i → (start ≤ i)%nat) →
  Str.find text key = Z.of_nat start.
Proof.
  intros Hocc Hmin.
  assert (Str.contains key text = true) as Hc
    by (apply StrFacts.contains_occurs; by exists start).
  destruct (StrFacts.find_from_first 0 key text Hc) as (l & r & Ht & Hf & Hl).
  unfold Str.find. rewrite Hf.
  destruct Hocc as (l' & r' & Ht' & <-).
  specialize (Hl l' r' Ht').
  specialize (Hmin (length l) ltac:(by exists l, r)). lia.
Qed.

(** X1: in literal mode, for a key that occurs in the text, [get_index]
    returns the index of its first occurrence as start and start plus the
    length of the key as end, and the text between the two offsets is the
    key. *)
Theorem get_index_literal_first_occurrence
    (text key : str) (self : EntityCorrect) :
  occurs key text →
  ∃ start : nat,
    get_index text key false self
    = (Ok (Z.of_nat start, Z.of_nat start + Z.of_nat (length key), key), self)
    ∧ occurs_at key text start
    ∧ (∀ i, occurs_at key text i → (start ≤ i)%nat)
    ∧ Str.slice text (Z.of_nat start) (Z.of_nat start + Z.of_nat (length key)) = key.
Proof.
  intros Hc%StrFacts.contains_occurs.
  destruct (StrFacts.find_from_first 0 key text Hc) as (l & r & Ht & Hf & Hl).
  exists (length l). unfold get_index, Str.find. rewrite Hf, Z.add_0_l.
  split_and!; [done | by exists l, r | |].
  - intros i (l' & r' & Ht' & <-). eauto.
  - rewrite Ht. apply StrFacts.slice_middle.
Qed.

Lemma get_index_literal_first_occurrence_witness :
  ∃ start : nat,
    get_index (lit "xabab") (lit "ab") false
              (engine_of (table_pinyin syllables) [] false at_at)
    = (Ok (Z.of_nat start, Z.of_nat start + Z.of_nat (length (lit "ab")), lit "ab"),
       engine_of (table_pinyin syllables) [] false at_at)
    ∧ occurs_at (lit "ab") (lit "xabab") start
    ∧ (∀ i, occurs_at (lit "ab") (lit "xabab") i → (start ≤ i)%nat)
    ∧ Str.slice (lit "xabab") (Z.of_nat start)
                (Z.of_nat start + Z.of_nat (length (lit "ab"))) = lit "ab".
Proof.
  apply (get_index_literal_first_occurrence (lit "xabab") (lit "ab")).
  exists 1%nat, (lit "x"), (lit "ab"). done.
Defined.

(** X2: in literal mode, for a key that does not occur in the text,
    [get_index] does not raise: it returns start -1 and end one less than
    the length of the key. *)
Theorem get_index_literal_absent (text key : str) (self : EntityCorrect) :
  ¬ occurs key text →
  get_index text key false self
  = (Ok (-1, Z.of_nat (length key) - 1, key), self).
Proof.
  intros Hno. unfold get_index, Str.find.
  rewrite StrFacts.find_from_absent.
  - exec. by replace (-1 + Z.of_nat (length key)) with (Z.of_nat (length key) - 1) by lia.
  - destruct (Str.contains key text) eqn:Hc; [|done].
    by apply StrFacts.contains_occurs in Hc.
Qed.

Lemma get_index_literal_absent_witness :
  get_index (lit "abc") (lit "d") false
            (engine_of (table_pinyin syllables) [] false at_at)
  = (Ok (-1, Z.of_nat (length (lit "d")) - 1, lit "d"),
     engine_of (table_pinyin syllables) [] false at_at).
Proof.
  apply (get_index_literal_absent (lit "abc") (lit "d")).
  intros Hocc%StrFacts.contains_occurs. by vm_compute in Hocc.
Defined.

Lemma find_bounds_occurrences text key n :
  Str.find text key = Z.of_nat n →
  ∀ i, occurs_at key text i → (n ≤ i)%nat.
Proof.
  intros Hfind i Hocc.
  assert (Str.contains key text = true) as Hc
    by (apply StrFacts.contains_occurs; by exists i).
  destruct (StrFacts.find_from_first 0 key text Hc) as (l & r & Ht & Hf & Hl).
  unfold Str.find in Hfind. rewrite Hf in Hfind.
  destruct Hocc as (l' & r' & Ht' & <-). specialize (Hl l' r' Ht'). lia.
Qed.

Lemma split_scan_skip sep (xs s : str) :
  Str.split_scan sep (length xs) (xs ++ s) = Str.split_scan sep 0 s.
Proof. induction xs as [|x xs IH]; simpl; [done | exact IH]. Qed.

Lemma split_scan_sep sep (s : str) :
  sep ≠ [] → Str.split_scan sep 0 (sep ++ s) = [] :: Str.split_scan sep 0 s.
Proof.
  intros Hsep. destruct sep as [|a sep']; [done|].
  change ((a :: sep') ++ s) with (a :: (sep' ++ s)).
  cbn [Str.split_scan].
  assert (Str.startswith (a :: sep') (a :: sep' ++ s) = true) as ->
    by (apply StrFacts.startswith_spec; by exists s).
  simpl length. replace (S (length sep') - 1)%nat with (length sep') by lia.
  by rewrite split_scan_skip.
Qed.

Lemma split_scan_token sep (tok s : str) p ps :
  sep ≠ [] → Forall (λ c, c ∉ sep) tok →
  Str.split_scan sep 0 s = p :: ps →
  Str.split_scan sep 0 (tok ++ s) = (tok ++ p) :: ps.
Proof.
  intros Hsep Htok Hs. induction Htok as [|c tok Hc Htok IH]; [done|].
  destruct sep as [|a sep']; [done|].
  change ((c :: tok) ++ s) with (c :: (tok ++ s)). cbn [Str.split_scan].
  assert (Str.startswith (a :: sep') (c :: tok ++ s) = false) as ->.
  { simpl. apply andb_false_intro1, N.eqb_neq. intros ->. apply Hc. left. }
  by rewrite IH.
Qed.

(** [sep.join(tokens).split(sep) == tokens] for tokens that hold no
    character of the separator. *)
Lemma split_join sep (toks : list str) :
  sep ≠ [] → toks ≠ [] → Forall (Forall (λ c, c ∉ sep)) toks →
  Str.split_scan sep 0 (Str.join sep toks) = toks.
Proof.
  intros Hsep Hne Hall. induction Hall as [|t toks Ht Hall IH]; [done|].
  destruct toks as [|t' toks].
  - simpl. rewrite <- (app_nil_r t) at 1.
    rewrite (split_scan_token sep t [] [] []); [by rewrite app_nil_r|done..].
  - rewrite StrFacts.join_cons2.
    rewrite (split_scan_token sep t _ [] (t' :: toks)); [by rewrite app_nil_r|done..|].
    rewrite split_scan_sep by done. by rewrite IH.
Qed.

Lemma join_app sep (a b : list str) :
  a ≠ [] → b ≠ [] →
  Str.join sep (a ++ b) = Str.join sep a ++ sep ++ Str.join sep b.
Proof.
  intros Ha Hb. induction a as [|x a IH]; [done|].
  destruct a as [|y a].
  - destruct b; [done|]. done.
  - change ((x :: y :: a) ++ b) with (x :: y :: (a ++ b)).
    rewrite !StrFacts.join_cons2.
    change (y :: (a ++ b)) with ((y :: a) ++ b). rewrite IH by done.
    by rewrite <- !app_assoc.
Qed.

(** X3: in phonetic mode with the default delimiter, for a text of tokens
    joined by [@@] in which no token holds the character [@], and a key made
    of the tokens from position [p] on whose first occurrence in the text is
    the one at that token boundary, [get_index] returns the token position
    [p] as start and [p] plus the number of tokens of the key as end. *)
Theorem get_index_phonetic_token_range
    (pre mid post : list str) (self : EntityCorrect) :
  let text := Str.join at_at (pre ++ mid ++ post) in
  let key := Str.join at_at mid in
  splitter_symbol self = at_at →
  Forall (Forall (λ c, c ≠ 64%N)) (pre ++ mid ++ post) →
  mid ≠ [] →
  (∀ i, occurs_at key text i → (length (token_prefix at_at pre) ≤ i)%nat) →
  get_index text key true self
  = (Ok (Z.of_nat (length pre),
         Z.of_nat (length pre) + Z.of_nat (length mid), key), self).
Proof.
  intros text key Hsp Hfree Hmid Hfirst.
  assert (∀ toks, Forall (Forall (λ c : N, c ≠ 64%N)) toks →
                  Forall (Forall (λ c, c ∉ at_at)) toks) as Hconv.
  { intros toks H. eapply Forall_impl; [exact H|]. simpl.
    intros tok Htok. eapply Forall_impl; [exact Htok|]. simpl.
    intros c Hc Hin. apply Hc.
    apply elem_of_cons in Hin as [-> | Hin]; [done|].
    apply elem_of_cons in Hin as [-> | Hin]; [done|]. by apply elem_of_nil in Hin. }
  apply Forall_app in Hfree as [Hpre Hrest].
  apply Forall_app in Hrest as [Hmidf Hpost].
  assert (∃ r, text = token_prefix at_at pre ++ key ++ r) as [r Htext].
  { unfold text, key, token_prefix.
    assert (∃ r, Str.join at_at (mid ++ post) = Str.join at_at mid ++ r) as [r Hr].
    { destruct post as [|q post].
      - exists []. by rewrite !app_nil_r.
      - eexists. by apply join_app. }
    destruct pre as [|t pre].
    - exists r. done.
    - exists r. rewrite join_app; [|done|by destruct mid].
      rewrite Hr. by rewrite <- !app_assoc. }
  assert (Str.find text key = Z.of_nat (length (token_prefix at_at pre))) as Hfind.
  { apply find_is_first; [|done]. eexists _, r. done. }
  assert (Str.slice_to text (Str.find text key) = token_prefix at_at pre) as Hslice.
  { rewrite Hfind, Htext. unfold Str.slice_to.
    apply (StrFacts.slice_middle [] (token_prefix at_at pre) (key ++ r)). }
  assert (length (Str.split_scan at_at 0 (token_prefix at_at pre)) = S (length pre))
    as Hsegs.
  { unfold token_prefix. destruct pre as [|t pre]; [done|].
    assert (Str.join at_at (t :: pre) ++ at_at
            = Str.join at_at ((t :: pre) ++ [[]])) as ->.
    { rewrite join_app by done. simpl Str.join at 3. by rewrite app_nil_r. }
    rewrite split_join; [|done|done|].
    - rewrite length_app. simpl. lia.
    - apply Hconv, Forall_app. split; [done|]. repeat constructor. }
  assert (Str.split_scan at_at 0 key = mid) as Htoks.
  { unfold key. apply split_join; [done | done | by apply Hconv]. }
  unfold get_index. exec. rewrite Hsp. simpl. rewrite Htoks, Hslice, Hsegs.
  by replace (Z.of_nat (S (length pre)) - 1) with (Z.of_nat (length pre)) by lia.
Qed.

(** The text [qu@@zhao@@hang] and the key [zhao@@hang]: offsets 1 and 3. *)
Lemma get_index_phonetic_token_range_witness :
  get_index (Str.join at_at ([lit "qu"] ++ [lit "zhao"; lit "hang"] ++ []))
            (Str.join at_at [lit "zhao"; lit "hang"]) true
            (engine_of (table_pinyin syllables) zhaohang_file true at_at)
  = (Ok (Z.of_nat (length [lit "qu"]),
         Z.of_nat (length [lit "qu"]) + Z.of_nat (length [lit "zhao"; lit "hang"]),
         Str.join at_at [lit "zhao"; lit "hang"]),
     engine_of (table_pinyin syllables) zhaohang_file true at_at).
Proof.
  apply (get_index_phonetic_token_range [lit "qu"] [lit "zhao"; lit "hang"] []
           (engine_of (table_pinyin syllables) zhaohang_file true at_at)).
  - reflexivity.
  - apply (bool_decide_unpack _). by vm_compute.
  - done.
  - apply find_bounds_occurrences. by vm_compute.
Defined.

(** ** Loading: [_get_synonym] and [__init__] *)

Lemma register_fold_words (standard_word : str) (ws : list str) (acc : gmap str str * list str) :
  (foldl (register standard_word) acc ws).2 = foldl append_new acc.2 ws.
Proof.
  revert acc; induction ws as [|w ws IH]; intros acc; simpl; [done|].
  by rewrite IH.
Qed.

Lemma load_dict_words (py : Pinyin) (splitter : str) (flag : bool) (file : list str) (acc : gmap str str * list str) :
  (foldl (load_line py splitter flag) acc file).2
  = foldl append_new acc.2 (file_keys py splitter flag file).
Proof.
  revert acc; induction file as [|line file IH]; intros acc; simpl; [done|].
  rewrite IH, foldl_app. unfold load_line at 1.
  by rewrite register_fold_words.
Qed.

(** X4: [_get_synonym] never raises and leaves the object alone; the word
    list it returns holds every key of the file once, in the order of first
    appearance, and its words are exactly the keys of the dictionary it
    returns. *)
Theorem get_synonym_word_list
    (file : list str) (flag : bool) (self : EntityCorrect) :
  ∃ d word_all,
    _get_synonym file flag self = (Ok (d, word_all), self)
    ∧ word_all
      = first_seen (file_keys (pinyin self) (splitter_symbol self) flag file)
    ∧ NoDup word_all
    ∧ ∀ key, is_Some (d !! key) ↔ key ∈ word_all.
Proof.
  destruct (load_dict (pinyin self) (splitter_symbol self) flag file)
    as [d wl] eqn:Hload.
  exists d, wl. rewrite get_synonym_run, Hload.
  assert (wl = first_seen (file_keys (pinyin self) (splitter_symbol self) flag file))
    as Hwl.
  { change wl with (d, wl).2. rewrite <- Hload. unfold load_dict.
    rewrite load_dict_words. apply foldl_append_new_first_seen. }
  split_and!; [done | done | rewrite Hwl; apply first_seen_NoDup |].
  intros key.
  pose proof (load_dict_keys (pinyin self) (splitter_symbol self) flag file key) as H.
  by rewrite Hload in H.
Qed.

Lemma register_fold_hit (standard_word : str) (ws : list str) (acc : gmap str str * list str) key :
  key ∈ ws → (foldl (register standard_word) acc ws).1 !! key = Some standard_word.
Proof.
  revert acc; induction ws as [|w ws IH]; intros acc Hin; simpl.
  - by apply elem_of_nil in Hin.
  - destruct (decide (key ∈ ws)) as [Hws|Hws]; [by apply IH|].
    apply elem_of_cons in Hin as [-> | Hin]; [|done].
    clear IH. revert acc. induction ws as [|w' ws IH]; intros acc; simpl.
    + unfold register. simpl. by rewrite lookup_insert_eq.
    + apply not_elem_of_cons in Hws as [Hne Hws].
      assert (∀ acc0 : gmap str str * list str,
                acc0.1 !! w = Some standard_word →
                (foldl (register standard_word) acc0 ws).1 !! w = Some standard_word)
        as Hkeep.
      { clear -Hws. induction ws as [|w'' ws IH]; intros acc0 H; simpl; [done|].
        apply not_elem_of_cons in Hws as [Hne Hws]. apply IH; [done|].
        unfold register. simpl. by rewrite lookup_insert_ne. }
      apply Hkeep. unfold register. simpl.
      rewrite lookup_insert_ne by done. by rewrite lookup_insert_eq.
Qed.

Lemma register_fold_miss (standard_word : str) (ws : list str) (acc : gmap str str * list str) key :
  key ∉ ws → (foldl (register standard_word) acc ws).1 !! key = acc.1 !! key.
Proof.
  revert acc; induction ws as [|w ws IH]; intros acc Hin; simpl; [done|].
  apply not_elem_of_cons in Hin as [Hne Hin].
  rewrite IH by done. unfold register. simpl. by rewrite lookup_insert_ne.
Qed.

Lemma load_line_hit (py : Pinyin) (splitter : str) (flag : bool)
    (acc : gmap str str * list str) (line key : str) :
  key ∈ line_keys py splitter flag line →
  (load_line py splitter flag acc line).1 !! key = head (fields line).
Proof.
  intros Hin. unfold load_line.
  destruct (fields_nonempty line) as (c & rest & Hf).
  rewrite register_fold_hit by done. by rewrite Hf.
Qed.

Lemma load_line_miss (py : Pinyin) (splitter : str) (flag : bool)
    (acc : gmap str str * list str) (line key : str) :
  key ∉ line_keys py splitter flag line →
  (load_line py splitter flag acc line).1 !! key = acc.1 !! key.
Proof. intros Hin. unfold load_line. by apply register_fold_miss. Qed.

Lemma snoc_split {A} (l before after : list A) (x y : A) :
  l ++ [x] = before ++ y :: after →
  (after = [] ∧ before = l ∧ y = x)
  ∨ ∃ after', after = after' ++ [x] ∧ l = before ++ y :: after'.
Proof.
  intros H. induction after as [|z after' _] using rev_ind.
  - left. apply app_inj_tail in H as [-> ->]. done.
  - right. exists after'.
    change (before ++ y :: after' ++ [z]) with (before ++ (y :: after') ++ [z]) in H.
    rewrite app_assoc in H. apply app_inj_tail in H as [-> ->]. done.
Qed.

(** The value of a key is the first field of the last line that registers
    the key. *)
Lemma load_dict_last_line py splitter flag file key c :
  (load_dict py splitter flag file).1 !! key = Some c
  ↔ ∃ before line after,
      file = before ++ line :: after
      ∧ head (fields line) = Some c
      ∧ key ∈ line_keys py splitter flag line
      ∧ ∀ line', line' ∈ after → key ∉ line_keys py splitter flag line'.
Proof.
  induction file as [|line file IH] using rev_ind.
  - split; [done|]. intros (before & l & after & H & _). by destruct before.
  - unfold load_dict in *. rewrite foldl_app. simpl.
    destruct (decide (key ∈ line_keys py splitter flag line)) as [Hin|Hin].
    + rewrite load_line_hit by done. split.
      * intros Hhd. exists file, line, []. split_and!; [done..|].
        intros line' H. by apply elem_of_nil in H.
      * intros (before & l & after & H & Hhd & _ & Hafter).
        apply snoc_split in H as [(-> & -> & ->) | (after' & -> & ->)]; [done|].
        exfalso. apply (Hafter line); [|done].
        apply elem_of_app. right. left.
    + rewrite load_line_miss by done. rewrite IH. split.
      * intros (before & l & after & -> & Hhd & Hkey & Hafter).
        exists before, l, (after ++ [line]). split_and!; [|done..|].
        { by rewrite <- app_assoc. }
        intros line' [H | ->%list_elem_of_singleton]%elem_of_app; [by apply Hafter|done].
      * intros (before & l & after & H & Hhd & Hkey & Hafter).
        apply snoc_split in H as [(-> & -> & ->) | (after' & -> & ->)]; [done|].
        exists before, l, after'. split_and!; [done..|].
        intros line' H. apply Hafter, elem_of_app. by left.
Qed.

(** X5: construction maps a key to the first field of the last line of the
    file that registers the key (a later line silently overwrites an
    earlier one), and to nothing else; the value is the first field as
    written, also in phonetic mode, where the key is its transliteration. *)
Theorem synonym_dict_last_line_wins
    (py : Pinyin) (file : list str) (flag : bool) (splitter : str) :
  ∃ self,
    __init__ py file flag splitter = Ok self
    ∧ ∀ key standard_word,
        synonym_dict self !! key = Some standard_word
        ↔ ∃ before line after,
            file = before ++ line :: after
            ∧ head (fields line) = Some standard_word
            ∧ key ∈ line_keys py splitter flag line
            ∧ ∀ line', line' ∈ after → key ∉ line_keys py splitter flag line'.
Proof.
  eexists. split; [apply init_run|]. intros key c. apply load_dict_last_line.
Qed.

(** ** The scan as [run] uses it *)

Lemma iter_sound_at a text ac_match end_index value :
  iter a text = Ok ac_match →
  (end_index, value) ∈ ac_match →
  ∃ start, (start ≤ end_index < length text)%nat
           ∧ store a !! take (S end_index - start) (drop start text) = Some value.
Proof.
  unfold iter. destruct (kind a); try done. intros [= <-] Hin.
  apply list_elem_of_In, in_flat_map in Hin as (e & He & Hin).
  apply in_seq in He. apply list_elem_of_In in Hin.
  unfold matches_ending_at in Hin.
  apply list_elem_of_omap in Hin as (start & Hstart & Hlook).
  apply elem_of_seq in Hstart.
  destruct (store a !! _) as [v|] eqn:Hv; simplify_eq/=.
  exists start. split; [lia | done].
Qed.

(** X6: whatever the scan of an engine reports is an occurrence: the word
    of a report is a non-empty key of the dictionary, and it occurs in the
    scanned text with its last character at the reported index. *)
Theorem scan_reports_only_occurrences
    (py : Pinyin) (file : list str) (flag : bool) (splitter : str)
    (self : EntityCorrect) (text : str)
    (ac_match : list (nat * (nat * str))) (end_index index : nat) (word : str) :
  __init__ py file flag splitter = Ok self →
  iter (ac_synonym self) text = Ok ac_match →
  (end_index, (index, word)) ∈ ac_match →
  word ≠ []
  ∧ is_Some (synonym_dict self !! word)
  ∧ (length word ≤ S end_index)%nat
  ∧ occurs_at word text (S end_index - length word).
Proof.
  rewrite init_run. intros [= <-] Hiter Hin.
  destruct (iter_sound_at _ _ _ _ _ Hiter Hin) as (start & Hrange & Hstore).
  apply engine_store in Hstore as (Hne & [index' [= -> Hword]] & Hdict).
  rewrite <- Hword in Hdict, Hne.
  assert (length word = S end_index - start)%nat as Hlen.
  { rewrite Hword, length_take, length_drop. lia. }
  split_and!; [done | done | lia |].
  exists (take start text), (drop (S end_index - start) (drop start text)).
  split.
  - rewrite Hword. by rewrite take_drop, take_drop.
  - rewrite length_take. lia.
Qed.

Lemma scan_reports_only_occurrences_witness :
  lit "b" ≠ []
  ∧ is_Some (synonym_dict (engine_of (table_pinyin syllables)
                                     [lit "ab"; lit "b"] false at_at) !! lit "b")
  ∧ (length (lit "b") ≤ 3)%nat
  ∧ occurs_at (lit "b") (lit "xab") (3 - length (lit "b")).
Proof.
  apply (scan_reports_only_occurrences
           (table_pinyin syllables) [lit "ab"; lit "b"] false at_at
           (engine_of (table_pinyin syllables) [lit "ab"; lit "b"] false at_at)
           (lit "xab") [(2, (0, lit "ab")); (2, (1, lit "b"))]%nat 2 1 (lit "b")).
  - apply init_run.
  - by vm_compute.
  - right. left.
Defined.

Lemma first_seen_elem_of l x : x ∈ first_seen l ↔ x ∈ l.
Proof.
  induction l as [|y l IH]; simpl; [done|].
  rewrite !elem_of_cons, list_elem_of_filter, IH.
  destruct (decide (x = y)); tauto.
Qed.

(** X7: every pair that [run] returns is sound: its variant is a non-empty
    key that occurs in the scanned text, its canonical name is the value
    the dictionary gives that key and is the first field of a line of the
    synonym file; and the names returned are exactly the canonical names of
    the pairs. *)
Theorem run_pairs_sound
    (py : Pinyin) (file : list str) (flag : bool) (splitter : str)
    (self : EntityCorrect) (text_raw update_text : str)
    (pairs : list (str * str)) (names : list str) (self' : EntityCorrect) :
  __init__ py file flag splitter = Ok self →
  run text_raw self = (Ok (update_text, pairs, names), self') →
  (∀ standard_name key, (standard_name, key) ∈ pairs →
     key ≠ []
     ∧ occurs key (scanned_text self text_raw)
     ∧ synonym_dict self !! key = Some standard_name
     ∧ standard_name ∈ canonical_names file)
  ∧ (∀ name, name ∈ names ↔ ∃ key, (name, key) ∈ pairs).
Proof.
  rewrite init_run. intros [= <-].
  intros (ac_match & wil & del & resolved & ss & Hiter & Hres & Hpop & Hsub & -> & ->)%run_Ok_inv.
  apply substitute_loop_pairs in Hsub as (emitted & -> & -> & Hkeys & Hall).
  apply resolver_marks in Hres as [_ Hwil].
  apply pop_marked_sublist in Hpop.
  rewrite app_nil_l, foldl_append_new_first_seen.
  destruct (list_of_set_spec emitted) as [_ Hmem].
  split.
  - intros c k Hin%Hmem.
    assert (k ∈ keys_of ac_match) as Hk.
    { eapply elem_of_sublist; [|rewrite <- Hwil; apply fmap_sublist, Hpop].
      rewrite <- Hkeys. apply list_elem_of_fmap. by exists (c, k). }
    unfold keys_of in Hk.
    apply list_elem_of_fmap in Hk as ([e [idx w]] & -> & Hk).
    destruct (iter_sound _ _ _ _ _ Hiter Hk) as (key & Hstore & Hne & Hocc).
    apply engine_store in Hstore as (_ & [index' [= -> ->]] & _).
    rewrite Forall_forall in Hall. specialize (Hall _ Hin). simpl in Hall.
    split_and!; [done | done | done |].
    apply load_dict_last_line in Hall as (before & line & after & -> & Hhd & _).
    apply list_elem_of_omap. exists line. split; [|done].
    apply elem_of_app. right. left.
  - intros name. rewrite first_seen_elem_of, list_elem_of_fmap. split.
    + intros ([c k] & -> & Hin). exists k. by apply Hmem.
    + intros (k & Hin%Hmem). by exists (name, k).
Qed.

Lemma run_pairs_sound_witness :
  (∀ standard_name key,
     (standard_name, key) ∈ [(lit "X", lit "b"); (lit "X", lit "a")] →
     key ≠ []
     ∧ occurs key (scanned_text (engine_of (table_pinyin syllables)
                                   [lit "X	a	b"] false at_at) (lit "ab"))
     ∧ synonym_dict (engine_of (table_pinyin syllables)
                       [lit "X	a	b"] false at_at) !! key = Some standard_name
     ∧ standard_name ∈ canonical_names [lit "X	a	b"])
  ∧ (∀ name, name ∈ [lit "X"]
             ↔ ∃ key, (name, key) ∈ [(lit "X", lit "b"); (lit "X", lit "a")]).
Proof.
  apply (run_pairs_sound (table_pinyin syllables) [lit "X	a	b"] false at_at
           (engine_of (table_pinyin syllables) [lit "X	a	b"] false at_at)
           (lit "ab") (lit "XX") _ _
           (engine_of (table_pinyin syllables) [lit "X	a	b"] false at_at)).
  - apply init_run.
  - vm_compute. reflexivity.
Defined.

(** X8: the normalisation of the input.  [run] works on the input with every
    whitespace character deleted: the [strip()] that follows the [re.sub]
    never removes anything, the text scanned and corrected holds no
    whitespace, and a run on the normalised input is the run on the input,
    so a variant broken by blanks is corrected like the variant itself. *)
Theorem run_normalises_input (text_raw : str) (self : EntityCorrect) :
  normalize text_raw = Str.remove_whitespace text_raw
  ∧ Forall (λ c, Str.isspace c = false) (normalize text_raw)
  ∧ run (normalize text_raw) self = run text_raw self.
Proof.
  assert (Forall (λ c, Str.isspace c = false) (Str.remove_whitespace text_raw))
    as Hclean.
  { apply Forall_forall. by intros c [Hc _]%list_elem_of_filter. }
  assert (Str.strip (Str.remove_whitespace text_raw)
          = Str.remove_whitespace text_raw) as Hstrip.
  { unfold Str.strip.
    rewrite (StrFacts.lstrip_no_space (Str.remove_whitespace text_raw)) by done.
    rewrite StrFacts.lstrip_no_space by (by apply Forall_reverse).
    apply reverse_involutive. }
  unfold normalize. rewrite Hstrip. split_and!; [done..|].
  unfold run. rewrite Hstrip.
  by rewrite (StrFacts.normalize_no_space (Str.remove_whitespace text_raw)).
Qed.

(** ** The resolver: marks and pops *)

Lemma filter_seq_sorted (P : nat → Prop) `{!∀ i, Decision (P i)} n m :
  StronglySorted lt (filter P (seq n m)).
Proof.
  revert n; induction m as [|m IH]; intros n; simpl; [constructor|].
  rewrite filter_cons. destruct (decide (P n)); [|apply IH].
  constructor; [apply IH|].
  apply Forall_forall. intros i [_ Hi%elem_of_seq]%list_elem_of_filter. lia.
Qed.

(** X9: when the marking loop of [run] returns, [word_index_list] holds, for
    every reported occurrence in scan order, the triple that [get_index]
    returns for its key on the scanned text: not the offsets of that
    occurrence but those of the first occurrence of its key, so the entries
    of a repeated key are equal.  In literal mode the triple is
    [(find, find + len(key), key)]; in phonetic mode, with a non-empty
    delimiter, start is the number of [@@]-separated segments before the
    first occurrence and end is start plus the number of tokens of the key.
    And [del_index] holds, in ascending
    order and once each, exactly the positions of the occurrences whose key
    is a substring of the key of an occurrence at another position. *)
Theorem resolver_marks_exactly
    (text_trans : str) (match_synonym : list str) (self : EntityCorrect)
    (word_index_list : list (Z * Z * str)) (del_index : list nat)
    (self' : EntityCorrect) :
  for_each (seq 0 (length match_synonym))
           (resolve_step text_trans match_synonym) ([], []) self
  = (Ok (word_index_list, del_index), self') →
  Forall2 (λ key word_index,
             get_index text_trans key (use_pinyin self) self = (Ok word_index, self))
          match_synonym word_index_list
  ∧ (use_pinyin self = false →
     word_index_list
     = (λ key, (Str.find text_trans key,
                Str.find text_trans key + Z.of_nat (length key), key))
       <$> match_synonym)
  ∧ (use_pinyin self = true → splitter_symbol self ≠ [] →
     word_index_list
     = (λ key,
          let segments :=
            Str.split_scan at_at 0
              (Str.slice_to text_trans (Str.find text_trans key)) in
          let tokens := Str.split_scan (splitter_symbol self) 0 key in
          (Z.of_nat (length segments) - 1,
           Z.of_nat (length segments) - 1 + Z.of_nat (length tokens), key))
       <$> match_synonym)
  ∧ word_index_list.*2 = match_synonym
  ∧ StronglySorted lt del_index
  ∧ ∀ i, i ∈ del_index
         ↔ ∃ j key_i key_j,
             i ≠ j ∧ match_synonym !! i = Some key_i
             ∧ match_synonym !! j = Some key_j
             ∧ ∃ l r, key_j = l ++ key_i ++ r.
Proof.
  intros Hloop.
  assert (Forall2 (λ key word_index,
                     get_index text_trans key (use_pinyin self) self
                     = (Ok word_index, self))
                  match_synonym word_index_list) as Hidx.
  { destruct (resolve_loop_inv _ _ _ _ _ _ _ _ _ _ Hloop) as (idxs & H & -> & _);
      [done | constructor |]. done. }
  assert (use_pinyin self = false →
          word_index_list = literal_index text_trans <$> match_synonym) as Hlit.
  { intros Hflag. by destruct (resolve_loop_literal _ _ _ _ _ _ Hflag Hloop). }
  assert (use_pinyin self = true → splitter_symbol self ≠ [] →
          word_index_list
          = (λ key,
               let segments :=
                 Str.split_scan at_at 0
                   (Str.slice_to text_trans (Str.find text_trans key)) in
               let tokens := Str.split_scan (splitter_symbol self) 0 key in
               (Z.of_nat (length segments) - 1,
                Z.of_nat (length segments) - 1 + Z.of_nat (length tokens), key))
            <$> match_synonym) as Hphon.
  { intros Hflag Hsplit. rewrite Hflag in Hidx. clear Hloop Hlit.
    induction Hidx as [|key word_index ms wil H _ IH]; [done|].
    rewrite get_index_phonetic in H by done. injection H as <-.
    rewrite fmap_cons. by rewrite IH. }
  apply resolver_marks in Hloop as [-> Hkeys].
  split_and!; [done | done | done | done | apply filter_seq_sorted |].
  intros i. rewrite list_elem_of_filter, is_marked_spec. split; [tauto|].
  intros H. split; [done|].
  destruct H as (j & ki & kj & _ & Hi & _). apply elem_of_seq.
  apply lookup_lt_Some in Hi. lia.
Qed.

(** The keys [a], [ab], [b], [c] reported in [abcb]: the two entries of [b]
    both carry the offsets 1 and 2 of its first occurrence; marked are 0, 2
    and 4. *)
Lemma resolver_marks_exactly_witness :
  let self := engine_of (table_pinyin syllables) [] false at_at in
  let match_synonym := [lit "a"; lit "ab"; lit "b"; lit "c"; lit "b"] in
  let word_index_list :=
    [(0, 1, lit "a"); (0, 2, lit "ab"); (1, 2, lit "b"); (2, 3, lit "c");
     (1, 2, lit "b")] in
  Forall2 (λ key word_index,
             get_index (lit "abcb") key (use_pinyin self) self
             = (Ok word_index, self))
          match_synonym word_index_list
  ∧ (use_pinyin self = false →
     word_index_list
     = (λ key, (Str.find (lit "abcb") key,
                Str.find (lit "abcb") key + Z.of_nat (length key), key))
       <$> match_synonym)
  ∧ (use_pinyin self = true → splitter_symbol self ≠ [] →
     word_index_list
     = (λ key,
          let segments :=
            Str.split_scan at_at 0
              (Str.slice_to (lit "abcb") (Str.find (lit "abcb") key)) in
          let tokens := Str.split_scan (splitter_symbol self) 0 key in
          (Z.of_nat (length segments) - 1,
           Z.of_nat (length segments) - 1 + Z.of_nat (length tokens), key))
       <$> match_synonym)
  ∧ word_index_list.*2 = match_synonym
  ∧ StronglySorted lt [0; 2; 4]%nat
  ∧ ∀ i, i ∈ [0; 2; 4]%nat
         ↔ ∃ j key_i key_j,
             i ≠ j ∧ match_synonym !! i = Some key_i
             ∧ match_synonym !! j = Some key_j
             ∧ ∃ l r, key_j = l ++ key_i ++ r.
Proof.
  apply (resolver_marks_exactly (lit "abcb")
           [lit "a"; lit "ab"; lit "b"; lit "c"; lit "b"]
           (engine_of (table_pinyin syllables) [] false at_at) _ _
           (engine_of (table_pinyin syllables) [] false at_at)).
  vm_compute. reflexivity.
Defined.

Lemma popped_positions_cons d del :
  popped_positions (d :: del) = d :: (S <$> popped_positions del).
Proof.
  unfold popped_positions. rewrite imap_cons, fmap_imap. f_equal; [lia|].
  apply imap_ext. intros k x _. simpl. lia.
Qed.

Lemma popped_positions_bound d del :
  Forall (λ x, (d < x)%nat) del →
  Forall (λ p, (d < p)%nat) (popped_positions del).
Proof.
  intros H. apply Forall_forall. intros p Hp.
  apply elem_of_lookup_imap in Hp as (k & x & -> & Hk).
  rewrite Forall_forall in H. apply list_elem_of_lookup_2 in Hk.
  specialize (H x Hk). lia.
Qed.

Lemma without_positions_nil {A} i (l : list A) : without_positions [] i l = l.
Proof.
  revert i; induction l as [|x l IH]; intros i; cbn [without_positions]; [done|].
  rewrite decide_False by apply not_elem_of_nil. by rewrite IH.
Qed.

Lemma without_positions_shift {A} d ps j (l : list A) :
  (d ≤ j)%nat →
  without_positions ps j l = without_positions (d :: (S <$> ps)) (S j) l.
Proof.
  revert j; induction l as [|x l IH]; intros j Hj; cbn [without_positions]; [done|].
  rewrite <- IH by lia.
  destruct (decide (j ∈ ps)) as [Hin|Hin].
  - rewrite decide_True; [done|]. right. apply list_elem_of_fmap. eauto.
  - rewrite decide_False; [done|].
    intros [?|(y & [= ->] & Hy)%list_elem_of_fmap]%elem_of_cons; [lia | done].
Qed.

Lemma without_positions_delete {A} d ps i (l : list A) :
  (i ≤ d)%nat → Forall (λ p, (d ≤ p)%nat) ps →
  without_positions ps i (delete (d - i)%nat l)
  = without_positions (d :: (S <$> ps)) i l.
Proof.
  intros Hi Hps. revert i Hi; induction l as [|x l IH]; intros i Hi; [done|].
  destruct (decide (i = d)) as [->|Hne].
  - rewrite Nat.sub_diag. cbn [delete list_delete without_positions].
    rewrite decide_True by left.
    by apply without_positions_shift.
  - replace (d - i)%nat with (S (d - S i)) by lia.
    cbn [delete list_delete without_positions].
    rewrite Forall_forall in Hps.
    rewrite decide_False.
    2:{ intros Hin. apply Hps in Hin. lia. }
    rewrite decide_False.
    2:{ intros [?|(y & -> & Hy)%list_elem_of_fmap]%elem_of_cons; [lia|].
        apply Hps in Hy. lia. }
    f_equal. apply IH. lia.
Qed.

Lemma pop_marked_shifted
    {A} (del_index : list nat) (word_index_list : list A) (self : EntityCorrect) :
  StronglySorted lt del_index →
  pop_marked del_index word_index_list self
  = (if decide (Forall (λ p, (p < length word_index_list)%nat)
                       (popped_positions del_index))
     then Ok (without_positions (popped_positions del_index) 0 word_index_list)
     else Raise IndexError, self).
Proof.
  intros Hsorted. revert word_index_list.
  induction Hsorted as [|d del Hsorted IH Hd]; intros wil.
  - unfold pop_marked. simpl. exec. by rewrite without_positions_nil.
  - rewrite popped_positions_cons.
    unfold pop_marked in *. simpl. unfold lift at 1, pop.
    destruct (decide (d < length wil)%nat) as [Hlt|Hge].
    + erewrite bind_run_Ok; [|reflexivity]. rewrite IH.
      rewrite length_delete by (by apply lookup_lt_is_Some_2).
      pose proof (popped_positions_bound d del Hd) as Hbound.
      destruct (decide (Forall _ (popped_positions del))) as [Hall|Hall].
      * rewrite decide_True.
        2:{ constructor; [done|]. apply Forall_fmap.
            eapply Forall_impl; [exact Hall|]. simpl. intros; lia. }
        do 2 f_equal.
        rewrite <- (without_positions_delete d (popped_positions del) 0 wil);
          [by rewrite Nat.sub_0_r | lia |].
        eapply Forall_impl; [exact Hbound|]. simpl. intros; lia.
      * rewrite decide_False; [done|].
        intros [_ Hall']%Forall_cons. apply Hall.
        apply Forall_fmap in Hall'.
        eapply Forall_impl; [exact Hall'|]. simpl. intros; lia.
    + exec. rewrite decide_False; [done|].
      intros [? _]%Forall_cons. lia.
Qed.

(** X10: the pops of [run] take ascending indices from a list that shrinks
    under them.  For ascending indices, the [k]-th index [d] removes the
    element that stood at position [d + k] of the original list: if all
    those positions exist, the result is the original list without them,
    the other elements in their order; otherwise the pops raise
    [IndexError]. *)
Theorem pops_remove_shifted_positions
    {A} (del_index : list nat) (word_index_list : list A) (self : EntityCorrect) :
  StronglySorted lt del_index →
  pop_marked del_index word_index_list self
  = (if decide (Forall (λ p, (p < length word_index_list)%nat)
                       (popped_positions del_index))
     then Ok (without_positions (popped_positions del_index) 0 word_index_list)
     else Raise IndexError, self).
Proof. apply pop_marked_shifted. Qed.

(** Popping the indices 0 and 2 from four elements removes the elements
    at 0 and 3. *)
Lemma pops_remove_shifted_positions_witness :
  pop_marked [0; 2]%nat [lit "a"; lit "ab"; lit "b"; lit "c"]
             (engine_of (table_pinyin syllables) [] false at_at)
  = (if decide (Forall (λ p, (p < length [lit "a"; lit "ab"; lit "b"; lit "c"])%nat)
                       (popped_positions [0; 2]%nat))
     then Ok (without_positions (popped_positions [0; 2]%nat) 0
                                [lit "a"; lit "ab"; lit "b"; lit "c"])
     else Raise IndexError,
     engine_of (table_pinyin syllables) [] false at_at).
Proof.
  apply (pops_remove_shifted_positions [0; 2]%nat
           [lit "a"; lit "ab"; lit "b"; lit "c"]).
  repeat constructor.
Defined.

Example pops_shift_example :
  popped_positions [0; 2]%nat = [0; 3]%nat
  ∧ without_positions [0; 3]%nat 0 [lit "a"; lit "ab"; lit "b"; lit "c"]
    = [lit "ab"; lit "b"].
Proof. split; reflexivity. Qed.

(** ** [run] in literal mode, in closed form *)

Lemma bind_run_Raise {A B} (m : M A) (k : A → M B) self x self1 :
  m self = (Raise x, self1) → (m ≫= k) self = (Raise x, self1).
Proof. unfold mbind, M_bind. by intros ->. Qed.

Lemma resolve_step_literal tt ms i key wil del self :
  use_pinyin self = false →
  ms !! i = Some key →
  resolve_step tt ms i (wil, del) self
  = (Ok (wil ++ [literal_index tt key],
         if is_marked ms i then append_new del i else del), self).
Proof.
  intros Hlit Hkey. unfold resolve_step.
  erewrite bind_run_Ok; [|unfold lift, item; by rewrite Hkey].
  erewrite bind_run_Ok; [|reflexivity]. rewrite Hlit.
  erewrite bind_run_Ok; [|apply get_index_literal].
  erewrite bind_run_Ok; [reflexivity|].
  apply mark_against_run.
  - by eapply lookup_lt_Some.
  - apply Forall_seq. intros; lia.
Qed.

Lemma resolve_loop_literal_returns tt ms self (positions : list nat) acc :
  use_pinyin self = false →
  Forall (λ i, (i < length ms)%nat) positions →
  ∃ r, for_each positions (resolve_step tt ms) acc self = (Ok r, self).
Proof.
  intros Hlit Hpos. revert acc.
  induction Hpos as [|i positions Hi Hpos IH]; intros [wil del]; simpl.
  - eexists. reflexivity.
  - destruct (lookup_lt_is_Some_2 ms i Hi) as [key Hkey].
    erewrite bind_run_Ok; [|by apply resolve_step_literal]. apply IH.
Qed.

Lemma resolve_loop_literal_run tt ms self :
  use_pinyin self = false →
  for_each (seq 0 (length ms)) (resolve_step tt ms) ([], []) self
  = (Ok (literal_index tt <$> ms,
         filter (λ i, is_marked ms i = true) (seq 0 (length ms))), self).
Proof.
  intros Hlit.
  destruct (resolve_loop_literal_returns tt ms self (seq 0 (length ms)) ([], []))
    as [[wil del] Hrun]; [done | apply Forall_seq; intros; lia |].
  rewrite Hrun. apply resolve_loop_literal in Hrun as [-> ->]; done.
Qed.

Lemma without_positions_fmap {A B} (f : A → B) ps i (l : list A) :
  f <$> without_positions ps i l = without_positions ps i (f <$> l).
Proof.
  revert i; induction l as [|x l IH]; intros i; [done|].
  rewrite fmap_cons. cbn [without_positions].
  destruct (decide (i ∈ ps)); [apply IH|]. by rewrite fmap_cons, IH.
Qed.

Lemma without_positions_sublist {A} ps i (l : list A) :
  without_positions ps i l `sublist_of` l.
Proof.
  revert i; induction l as [|x l IH]; intros i; cbn [without_positions]; [done|].
  destruct (decide (i ∈ ps)); [by apply sublist_cons | by apply sublist_skip].
Qed.

Lemma substitute_loop_literal tt (kept names : list str) u ss sn self :
  Forall (λ key, Str.contains key tt = true) kept →
  Forall2 (λ key standard_name, synonym_dict self !! key = Some standard_name)
          kept names →
  for_each (literal_index tt <$> kept) (substitute tt) (u, ss, sn) self
  = (Ok (foldl (λ u '(key, standard_name), Str.replace u key standard_name)
               u (zip kept names),
         ss ++ zip names kept,
         foldl append_new sn names), self).
Proof.
  intros Hocc Hnames. revert u ss sn.
  induction Hnames as [|key c kept names Hc Hnames IH]; intros u ss sn.
  - simpl. exec. by rewrite app_nil_r.
  - apply Forall_cons in Hocc as [Hkey Hocc].
    rewrite fmap_cons. cbn [for_each].
    erewrite bind_run_Ok.
    2:{ unfold substitute, literal_index, getitem. exec. rewrite Hc.
        rewrite StrFacts.slice_find by done. reflexivity. }
    rewrite IH by done. simpl. by rewrite <- app_assoc.
Qed.

Lemma dictionary_values (d : gmap str str) (keys : list str) :
  Forall (λ key, is_Some (d !! key)) keys →
  ∃ names, Forall2 (λ key standard_name, d !! key = Some standard_name) keys names.
Proof.
  induction 1 as [|key keys [c Hc] _ [names IH]].
  - exists []. constructor.
  - exists (c :: names). by constructor.
Qed.

(** The keys a scan of an engine reports are non-empty keys of its
    dictionary that occur in the text. *)
Lemma engine_scan_keys py file flag splitter text ac_match :
  iter (ac_synonym (engine_of py file flag splitter)) text = Ok ac_match →
  Forall (λ key, key ≠ [] ∧ Str.contains key text = true
                 ∧ is_Some (synonym_dict (engine_of py file flag splitter) !! key))
         (keys_of ac_match).
Proof.
  intros Hiter. apply Forall_forall. intros key Hin.
  unfold keys_of in Hin.
  apply list_elem_of_fmap in Hin as ([e [idx w]] & -> & Hin).
  destruct (iter_sound _ _ _ _ _ Hiter Hin) as (k & Hstore & Hne & Hocc).
  apply engine_store in Hstore as (_ & [index' [= -> ->]] & Hdict).
  split_and!; [done | by apply StrFacts.contains_occurs | done].
Qed.

Lemma run_literal_run py file splitter text_raw ac_match :
  let self := engine_of py file false splitter in
  let ms := keys_of ac_match in
  let positions :=
    popped_positions (filter (λ i, is_marked ms i = true) (seq 0 (length ms))) in
  let kept := without_positions positions 0 ms in
  iter (ac_synonym self) (normalize text_raw) = Ok ac_match →
  ∃ names,
    Forall2 (λ key standard_name, synonym_dict self !! key = Some standard_name)
            kept names
    ∧ run text_raw self
      = (if decide (Forall (λ p, (p < length ms)%nat) positions)
         then Ok (foldl (λ u '(key, standard_name), Str.replace u key standard_name)
                        (normalize text_raw) (zip kept names),
                  list_of_set (zip names kept),
                  first_seen names)
         else Raise IndexError, self).
Proof.
  intros self ms positions kept Hiter.
  pose proof (engine_scan_keys _ _ _ _ _ _ Hiter) as Hkeys. fold ms self in Hkeys.
  assert (Forall (λ key, key ≠ [] ∧ Str.contains key (normalize text_raw) = true
                         ∧ is_Some (synonym_dict self !! key)) kept) as Hkept.
  { apply Forall_forall. intros key Hin. rewrite Forall_forall in Hkeys.
    apply Hkeys. eapply elem_of_sublist; [exact Hin|].
    apply without_positions_sublist. }
  destruct (dictionary_values (synonym_dict self) kept) as [names Hnames].
  { eapply Forall_impl; [exact Hkept|]. simpl. tauto. }
  exists names. split; [done|].
  unfold run. fold (normalize text_raw).
  erewrite bind_run_Ok; [|reflexivity].
  erewrite (bind_run_Ok _ _ _ (normalize text_raw) self); [|reflexivity].
  erewrite bind_run_Ok; [|reflexivity].
  erewrite bind_run_Ok; [|unfold lift; by rewrite Hiter].
  fold (keys_of ac_match). fold ms.
  erewrite bind_run_Ok; [|by apply resolve_loop_literal_run].
  cbv beta iota.
  pose proof (pop_marked_shifted
                (filter (λ i, is_marked ms i = true) (seq 0 (length ms)))
                (literal_index (normalize text_raw) <$> ms) self
                (filter_seq_sorted _ _ _)) as Hpop.
  rewrite length_fmap in Hpop. fold positions in Hpop.
  destruct (decide (Forall (λ p, (p < length ms)%nat) positions)) as [Hin|Hout].
  - erewrite bind_run_Ok; [|exact Hpop].
    rewrite <- without_positions_fmap. fold kept.
    erewrite bind_run_Ok.
    2:{ apply substitute_loop_literal; [|exact Hnames].
        eapply Forall_impl; [exact Hkept|]. simpl. tauto. }
    cbv beta iota. exec. by rewrite foldl_append_new_first_seen.
  - erewrite bind_run_Raise; [|exact Hpop]. done.
Qed.

(** X11: [run] in literal mode, in closed form.  For an engine whose scan of
    the normalised input reports the keys [ms], let the positions popped be
    those of the marked occurrences, the [k]-th shifted by [k].  If one of
    them is beyond the list, [run] raises [IndexError].  Otherwise [run]
    returns: the occurrences kept are the others, in scan order; the text
    is the normalised input with, for each key kept in turn, every
    occurrence of the key replaced by the name the dictionary gives it; the
    pairs are the set of those names and keys; the names are the names at
    their first occurrence. *)
Theorem run_literal_closed_form
    (py : Pinyin) (file : list str) (splitter : str) (self : EntityCorrect)
    (text_raw : str) (ac_match : list (nat * (nat * str))) :
  __init__ py file false splitter = Ok self →
  iter (ac_synonym self) (normalize text_raw) = Ok ac_match →
  let ms := keys_of ac_match in
  let positions :=
    popped_positions (filter (λ i, is_marked ms i = true) (seq 0 (length ms))) in
  let kept := without_positions positions 0 ms in
  ∃ names,
    Forall2 (λ key standard_name, synonym_dict self !! key = Some standard_name)
            kept names
    ∧ run text_raw self
      = (if decide (Forall (λ p, (p < length ms)%nat) positions)
         then Ok (foldl (λ u '(key, standard_name), Str.replace u key standard_name)
                        (normalize text_raw) (zip kept names),
                  list_of_set (zip names kept),
                  first_seen names)
         else Raise IndexError, self).
Proof.
  rewrite init_run. intros [= <-] Hiter. by apply run_literal_run.
Qed.

(** The entries [A <- a], [AB <- ab], [B <- b], [C <- c] and the text
    [abc]: kept are [ab] and [b]. *)
Lemma run_literal_closed_form_witness :
  let self := engine_of (table_pinyin syllables)
                [lit "A	a"; lit "AB	ab"; lit "B	b"; lit "C	c"] false at_at in
  let ms := [lit "a"; lit "ab"; lit "b"; lit "c"] in
  let positions :=
    popped_positions (filter (λ i, is_marked ms i = true) (seq 0 (length ms))) in
  let kept := without_positions positions 0 ms in
  ∃ names,
    Forall2 (λ key standard_name, synonym_dict self !! key = Some standard_name)
            kept names
    ∧ run (lit "abc") self
      = (if decide (Forall (λ p, (p < length ms)%nat) positions)
         then Ok (foldl (λ u '(key, standard_name), Str.replace u key standard_name)
                        (normalize (lit "abc")) (zip kept names),
                  list_of_set (zip names kept),
                  first_seen names)
         else Raise IndexError, self).
Proof.
  apply (run_literal_closed_form (table_pinyin syllables)
           [lit "A	a"; lit "AB	ab"; lit "B	b"; lit "C	c"] at_at _ (lit "abc")
           [(0, (1, lit "a")); (1, (3, lit "ab")); (1, (5, lit "b"));
            (2, (7, lit "c"))]%nat).
  - apply init_run.
  - by vm_compute.
Defined.

Lemma unmarked_filter ms :
  (∀ i j key_i key_j, i ≠ j → ms !! i = Some key_i → ms !! j = Some key_j →
                      ¬ occurs key_i key_j) →
  filter (λ i, is_marked ms i = true) (seq 0 (length ms)) = [].
Proof.
  intros Hno. induction (seq 0 (length ms)) as [|i l IH]; [done|].
  rewrite filter_cons_False; [done|].
  intros (j & ki & kj & Hij & Hi & Hj & l' & r & ->)%is_marked_spec.
  apply (Hno i j ki _ Hij Hi Hj). by exists (length l'), l', r.
Qed.

Lemma unmarked_check ms :
  Forall (λ i, is_marked ms i = false) (seq 0 (length ms)) →
  ∀ i j key_i key_j, i ≠ j → ms !! i = Some key_i → ms !! j = Some key_j →
                     ¬ occurs key_i key_j.
Proof.
  intros Hall i j ki kj Hij Hi Hj (p & l & r & -> & _).
  rewrite Forall_forall in Hall.
  assert (is_marked ms i = true) as Hm.
  { apply is_marked_spec. eauto 10. }
  rewrite Hall in Hm; [done|]. apply elem_of_seq.
  apply lookup_lt_Some in Hi. lia.
Qed.

(** X12: in literal mode, when no reported key is a substring of the key of
    another reported occurrence (in particular no key is reported twice),
    [run] returns and applies every reported occurrence: the text is the
    normalised input with, for each reported key in scan order, every
    occurrence of the key replaced by its canonical name. *)
Theorem run_literal_unnested
    (py : Pinyin) (file : list str) (splitter : str) (self : EntityCorrect)
    (text_raw : str) (ac_match : list (nat * (nat * str))) :
  __init__ py file false splitter = Ok self →
  iter (ac_synonym self) (normalize text_raw) = Ok ac_match →
  (∀ i j key_i key_j,
     i ≠ j → keys_of ac_match !! i = Some key_i →
     keys_of ac_match !! j = Some key_j → ¬ occurs key_i key_j) →
  ∃ names,
    Forall2 (λ key standard_name, synonym_dict self !! key = Some standard_name)
            (keys_of ac_match) names
    ∧ run text_raw self
      = (Ok (foldl (λ u '(key, standard_name), Str.replace u key standard_name)
                   (normalize text_raw) (zip (keys_of ac_match) names),
             list_of_set (zip names (keys_of ac_match)),
             first_seen names), self).
Proof.
  rewrite init_run. intros [= <-] Hiter Hno.
  destruct (run_literal_run py file splitter text_raw ac_match Hiter)
    as (names & Hnames & Hrun).
  rewrite (unmarked_filter _ Hno) in Hnames, Hrun.
  change (popped_positions []) with (@nil nat) in Hnames, Hrun.
  rewrite without_positions_nil in Hnames, Hrun.
  exists names. split; [done|]. rewrite Hrun.
  by rewrite decide_True by constructor.
Qed.

(** The entries [X <- a, b] and the text [ab]. *)
Lemma run_literal_unnested_witness :
  ∃ names,
    Forall2 (λ key standard_name,
               synonym_dict (engine_of (table_pinyin syllables)
                               [lit "X	a	b"] false at_at) !! key
               = Some standard_name)
            (keys_of [(0, (1, lit "a")); (1, (2, lit "b"))]%nat) names
    ∧ run (lit "ab") (engine_of (table_pinyin syllables) [lit "X	a	b"] false at_at)
      = (Ok (foldl (λ u '(key, standard_name), Str.replace u key standard_name)
                   (normalize (lit "ab"))
                   (zip (keys_of [(0, (1, lit "a")); (1, (2, lit "b"))]%nat) names),
             list_of_set (zip names (keys_of [(0, (1, lit "a")); (1, (2, lit "b"))]%nat)),
             first_seen names),
         engine_of (table_pinyin syllables) [lit "X	a	b"] false at_at).
Proof.
  apply (run_literal_unnested (table_pinyin syllables) [lit "X	a	b"] at_at).
  - apply init_run.
  - by vm_compute.
  - apply unmarked_check. apply (bool_decide_unpack _). by vm_compute.
Defined.

Lemma replace_scan_skip old new (xs s : str) :
  Str.replace_scan old new (length xs) (xs ++ s) = Str.replace_scan old new 0 s.
Proof. induction xs as [|x xs IH]; simpl; [done | exact IH]. Qed.

Lemma replace_scan_absent old new (s : str) :
  Str.contains old s = false → Str.replace_scan old new 0 s = s.
Proof.
  induction s as [|c s IH]; intros Hc; [done|].
  cbn [Str.contains] in Hc. apply orb_false_iff in Hc as [Hs Hc].
  cbn [Str.replace_scan]. rewrite Hs. by rewrite IH.
Qed.

(** Replacing a key that occurs at one place only replaces that place. *)
Lemma replace_unique (l key r new : str) :
  key ≠ [] →
  (∀ i, occurs_at key (l ++ key ++ r) i → i = length l) →
  Str.replace (l ++ key ++ r) key new = l ++ new ++ r.
Proof.
  intros Hne Huniq. unfold Str.replace. destruct key as [|a key'] eqn:Hkey; [done|].
  rewrite <- Hkey in *. clear Hkey a key'.
  induction l as [|x l IH].
  - simpl app. destruct key as [|a key']; [done|].
    change ((a :: key') ++ r) with (a :: (key' ++ r)). cbn [Str.replace_scan].
    assert (Str.startswith (a :: key') (a :: key' ++ r) = true) as ->
      by (apply StrFacts.startswith_spec; by exists r).
    simpl length. replace (S (length key') - 1)%nat with (length key') by lia.
    rewrite replace_scan_skip. f_equal. apply replace_scan_absent.
    destruct (Str.contains (a :: key') r) eqn:Hc; [|done].
    apply StrFacts.contains_spec in Hc as (l' & r' & ->).
    specialize (Huniq (length ((a :: key') ++ l'))). simpl in Huniq.
    discriminate Huniq. exists ((a :: key') ++ l'), r'. split; [|done].
    by rewrite <- app_assoc.
  - change ((x :: l) ++ key ++ r) with (x :: (l ++ key ++ r)).
    cbn [Str.replace_scan].
    assert (Str.startswith key (x :: l ++ key ++ r) = false) as ->.
    { destruct (Str.startswith key _) eqn:Hs; [|done].
      apply StrFacts.startswith_spec in Hs as [r' Hr'].
      specialize (Huniq 0%nat). simpl in Huniq. discriminate Huniq.
      by exists [], r'. }
    simpl. f_equal. apply IH. intros i (l' & r' & Ht & <-).
    specialize (Huniq (S (length l'))). simpl in Huniq.
    assert (S (length l') = S (length l)) as [= ->]; [|done].
    apply Huniq. exists (x :: l'), r'. split; [|done]. simpl. by rewrite Ht.
Qed.

Lemma list_of_set_singleton p : list_of_set [p] = [p].
Proof.
  unfold list_of_set. simpl. rewrite (right_id_L ∅ (∪)). apply elements_singleton.
Qed.

(** X13: in literal mode, when the scan reports exactly one occurrence, the
    key occurs at one place of the normalised input, and [run] returns the
    input with that place replaced by the canonical name of the key, one
    pair and one name. *)
Theorem run_single_occurrence
    (py : Pinyin) (file : list str) (splitter : str) (self : EntityCorrect)
    (text_raw : str) (end_index index : nat) (key : str) :
  __init__ py file false splitter = Ok self →
  iter (ac_synonym self) (normalize text_raw) = Ok [(end_index, (index, key))] →
  ∃ l r standard_name,
    normalize text_raw = l ++ key ++ r
    ∧ (∀ i, occurs_at key (normalize text_raw) i → i = length l)
    ∧ synonym_dict self !! key = Some standard_name
    ∧ run text_raw self
      = (Ok (l ++ standard_name ++ r, [(standard_name, key)], [standard_name]),
         self).
Proof.
  rewrite init_run. intros [= <-] Hiter.
  pose proof (engine_scan_keys _ _ _ _ _ _ Hiter) as Hkeys.
  apply Forall_cons in Hkeys as [(Hne & Hc & Hdict) _].
  destruct (engine_compiled _ _ _ _ _ Hdict Hne) as [Hkind [index' Hstore]].
  assert (∀ i, occurs_at key (normalize text_raw) i
               → i = (S end_index - length key)%nat) as Hpos.
  { intros i Hocc.
    destruct (iter_complete _ _ _ _ _ Hkind Hstore Hne Hocc) as (ac & Hac & Hin).
    rewrite Hiter in Hac. injection Hac as <-.
    apply list_elem_of_singleton in Hin. injection Hin as Hin _.
    assert (0 < length key)%nat by (destruct key; [done | simpl; lia]). lia. }
  apply StrFacts.contains_spec in Hc as (l & r & Htext).
  assert (∀ i, occurs_at key (normalize text_raw) i → i = length l) as Huniq.
  { intros i Hi. rewrite (Hpos i Hi). symmetry. apply Hpos. by exists l, r. }
  destruct (run_literal_run py file splitter text_raw _ Hiter)
    as (names & Hnames & Hrun).
  assert (filter (λ i, is_marked (keys_of [(end_index, (index, key))]) i = true)
                 (seq 0 (length (keys_of [(end_index, (index, key))]))) = [])
    as Hfilter.
  { apply unmarked_filter. intros i j ki kj Hij Hi Hj.
    apply lookup_lt_Some in Hi, Hj. simpl in Hi, Hj. lia. }
  rewrite Hfilter in Hnames, Hrun.
  change (popped_positions []) with (@nil nat) in Hnames, Hrun.
  rewrite without_positions_nil in Hnames, Hrun.
  change (keys_of [(end_index, (index, key))]) with [key] in Hnames, Hrun.
  apply Forall2_cons_inv_l in Hnames as (c & names' & Hc & Hnil & ->).
  apply Forall2_nil_inv_l in Hnil as ->.
  exists l, r, c. split_and!; [done | done | done |].
  rewrite Hrun, decide_True by constructor.
  simpl zip. cbn [foldl first_seen]. rewrite list_of_set_singleton.
  rewrite Htext in Huniq |- *. by rewrite replace_unique.
Qed.

(** The scenario 去农行还是招行 with the record 招商银行 <- 招行. *)
Lemma run_single_occurrence_witness :
  ∃ l r standard_name,
    normalize [21435; 20892; 34892; 36824; 26159; 25307; 34892]%N
    = l ++ zhaohang ++ r
    ∧ (∀ i, occurs_at zhaohang
              (normalize [21435; 20892; 34892; 36824; 26159; 25307; 34892]%N) i
            → i = length l)
    ∧ synonym_dict (engine_of (table_pinyin syllables) zhaohang_file false at_at)
        !! zhaohang = Some standard_name
    ∧ run [21435; 20892; 34892; 36824; 26159; 25307; 34892]%N
          (engine_of (table_pinyin syllables) zhaohang_file false at_at)
      = (Ok (l ++ standard_name ++ r, [(standard_name, zhaohang)], [standard_name]),
         engine_of (table_pinyin syllables) zhaohang_file false at_at).
Proof.
  apply (run_single_occurrence (table_pinyin syllables) zhaohang_file at_at
           (engine_of (table_pinyin syllables) zhaohang_file false at_at)
           [21435; 20892; 34892; 36824; 26159; 25307; 34892]%N 6 1 zhaohang).
  - apply init_run.
  - by vm_compute.
Defined.

(** ** What [run] raises *)

Lemma bind_Raise {A B} (m : M A) (k : A → M B) self x self' :
  (m ≫= k) self = (Raise x, self') →
  m self = (Raise x, self')
  ∨ ∃ a self1, m self = (Ok a, self1) ∧ k a self1 = (Raise x, self').
Proof.
  unfold mbind, M_bind. destruct (m self) as [[a|y] self1]; [eauto|].
  intros [= -> ->]. by left.
Qed.

Lemma get_index_Raise text key flag self x self' :
  get_index text key flag self = (Raise x, self') →
  x = ValueError ∧ flag = true ∧ splitter_symbol self = [].
Proof.
  unfold get_index. destruct flag; [|done]. exec. unfold Str.split.
  destruct (splitter_symbol self); [|done]. by intros [= <- _].
Qed.

Lemma resolve_step_Raise tt ms i acc self x self' :
  (i < length ms)%nat →
  resolve_step tt ms i acc self = (Raise x, self') →
  x = ValueError ∧ use_pinyin self = true ∧ splitter_symbol self = [].
Proof.
  intros Hi H. destruct acc as [wil del]. unfold resolve_step in H.
  destruct (lookup_lt_is_Some_2 ms i Hi) as [key Hkey].
  apply bind_Raise in H as [H | (key' & s1 & Hitem & H)].
  { unfold lift, item in H. by rewrite Hkey in H. }
  unfold lift, item in Hitem. rewrite Hkey in Hitem. injection Hitem as <- <-.
  apply bind_Raise in H as [H | (flag & s1 & [= <- <-] & H)]; [done|].
  apply bind_Raise in H as [H | (idx & s1 & Hidx & H)].
  { by apply get_index_Raise in H. }
  assert (s1 = self) as ->.
  { pose proof (get_index_readonly tt key (use_pinyin self) self) as Hro.
    by rewrite Hidx in Hro. }
  assert (Forall (λ j, (j < length ms)%nat) (seq 0 (length ms))) as Hjs
    by (apply Forall_seq; intros; lia).
  rewrite (bind_run_Ok _ _ _ _ _ (mark_against_run ms i _ del self Hi Hjs)) in H.
  done.
Qed.

Lemma resolve_loop_Raise tt ms (positions : list nat) acc self x self' :
  Forall (λ i, (i < length ms)%nat) positions →
  for_each positions (resolve_step tt ms) acc self = (Raise x, self') →
  x = ValueError ∧ use_pinyin self = true ∧ splitter_symbol self = [].
Proof.
  intros Hpos. revert acc.
  induction Hpos as [|i positions Hi Hpos IH]; intros acc H; simpl in H; [done|].
  apply bind_Raise in H as [H | (acc1 & s1 & Hstep & H)].
  - by eapply resolve_step_Raise.
  - assert (s1 = self) as ->.
    { pose proof (resolve_step_readonly tt ms i acc self) as Hro.
      by rewrite Hstep in Hro. }
    by eapply IH.
Qed.

Lemma pop_marked_Raise {A} del (wil : list A) self x self' :
  pop_marked del wil self = (Raise x, self') → x = IndexError.
Proof.
  unfold pop_marked. revert wil; induction del as [|d del IH]; intros wil H;
    simpl in H; [done|].
  apply bind_Raise in H as [H | (wil1 & s1 & Hpop & H)].
  - unfold lift, pop in H. case_decide; [done|]. by injection H as <- _.
  - unfold lift in Hpop. injection Hpop as _ <-. by eapply IH.
Qed.

Lemma substitute_loop_Raise text_raw (items : list (Z * Z * str)) acc self x self' :
  for_each items (substitute text_raw) acc self = (Raise x, self') →
  x = KeyError ∧ ∃ item, item ∈ items ∧ synonym_dict self !! item.2 = None.
Proof.
  revert acc; induction items as [|[[s e] key] items IH]; intros [[u ss] sn] H;
    simpl in H; [done|].
  apply bind_Raise in H as [H | (acc1 & s1 & Hstep & H)].
  - unfold substitute, getitem in H.
    unfold mbind, M_bind, mret, M_ret, lift, read in H. simpl in H.
    destruct (synonym_dict self !! key) eqn:Hkey; [done|].
    injection H as <- _. split; [done|]. exists (s, e, key). split; [left | done].
  - assert (s1 = self) as ->.
    { pose proof (substitute_readonly text_raw (s, e, key) (u, ss, sn) self) as Hro.
      change (substitute text_raw (s, e, key) (u, ss, sn) self = (Ok acc1, s1))
        in Hstep.
      by rewrite Hstep in Hro. }
    apply IH in H as [-> (item & Hin & Hnone)]. split; [done|].
    exists item. split; [by right | done].
Qed.

(** X14: what [run] can raise.  On an engine built by the constructor,
    [run] raises [AttributeError] only when the dictionary has no non-empty
    key, [ValueError] only in phonetic mode with an empty delimiter, and
    otherwise only [IndexError], from the pops; it never raises [KeyError],
    because every key it looks up is a key of the dictionary. *)
Theorem run_raises_only
    (py : Pinyin) (file : list str) (flag : bool) (splitter : str)
    (self : EntityCorrect) (text_raw : str) (x : exn) :
  __init__ py file flag splitter = Ok self →
  (run text_raw self).1 = Raise x →
  (x = AttributeError ∧ ∀ key, is_Some (synonym_dict self !! key) → key = [])
  ∨ (x = ValueError ∧ flag = true ∧ splitter = [])
  ∨ x = IndexError.
Proof.
  rewrite init_run. intros [= <-] Hrun.
  destruct (run text_raw (engine_of py file flag splitter)) as [o s'] eqn:H.
  simpl in Hrun. subst o.
  set (self := engine_of py file flag splitter) in *.
  unfold run in H. fold (normalize text_raw) in H.
  apply bind_Raise in H as [H | (fl & s1 & [= <- <-] & H)]; [done|].
  apply bind_Raise in H as [H | (tt & s1 & Htt & H)].
  { revert H. by destruct flag. }
  assert (tt = scanned_text self text_raw ∧ s1 = self) as [-> ->].
  { unfold scanned_text. simpl. revert Htt.
    destruct flag; unfold mbind, M_bind, read, mret, M_ret; intros; by simplify_eq/=. }
  apply bind_Raise in H as [H | (actree & s1 & [= <- <-] & H)]; [done|].
  apply bind_Raise in H as [H | (ac_match & s1 & [= Hiter <-] & H)].
  { left. unfold lift in H. injection H as H _.
    assert (iter (ac_synonym self) (scanned_text self text_raw) = Raise x) as Hit
      by exact H.
    clear H. unfold iter in Hit.
    assert (x = AttributeError) as ->
      by (destruct (kind (ac_synonym self)); by simplify_eq).
    split; [done|]. intros key Hkey.
    destruct (decide (key = [])) as [|Hne]; [done|].
    destruct (engine_compiled _ _ _ _ _ Hkey Hne) as [Hkind _].
    fold self in Hkind. by rewrite Hkind in Hit. }
  fold (keys_of ac_match) in H.
  apply bind_Raise in H as [H | ([wil del] & s1 & Hres & H)].
  { right. left. apply resolve_loop_Raise in H; [done|].
    apply Forall_seq. intros; lia. }
  assert (s1 = self) as ->.
  { pose proof (readonly_for_each (seq 0 (length (keys_of ac_match)))
      (resolve_step (scanned_text self text_raw) (keys_of ac_match)) ([], [])
      (resolve_step_readonly _ _) self) as Hro. by rewrite Hres in Hro. }
  apply bind_Raise in H as [H | (resolved & s1 & Hpop & H)].
  { right. right. by eapply pop_marked_Raise. }
  assert (s1 = self) as ->.
  { pose proof (pop_marked_readonly del wil self) as Hro. by rewrite Hpop in Hro. }
  apply bind_Raise in H as [H | ([[u ss] sn] & s1 & _ & H)]; [|done].
  exfalso. apply substitute_loop_Raise in H as [_ ([[s e] key] & Hin & Hnone)].
  apply resolver_marks in Hres as [_ Hwil].
  apply pop_marked_sublist in Hpop.
  assert (key ∈ keys_of ac_match) as Hk.
  { eapply elem_of_sublist; [|rewrite <- Hwil; apply fmap_sublist, Hpop].
    apply list_elem_of_fmap. by exists (s, e, key). }
  pose proof (engine_scan_keys _ _ _ _ _ _ Hiter) as Hkeys.
  rewrite Forall_forall in Hkeys. destruct (Hkeys key Hk) as (_ & _ & [c Hc]).
  change (synonym_dict self !! key = None) in Hnone.
  change (synonym_dict self !! key = Some c) in Hc. congruence.
Qed.

(** The entries [A <- a], [B <- b] and the text [aa]: [IndexError]. *)
Lemma run_raises_only_witness :
  (IndexError = AttributeError
   ∧ ∀ key, is_Some (synonym_dict (engine_of (table_pinyin syllables)
                                     [lit "A	a"; lit "B	b"] false at_at) !! key)
            → key = [])
  ∨ (IndexError = ValueError ∧ false = true ∧ at_at = [])
  ∨ IndexError = IndexError.
Proof.
  apply (run_raises_only (table_pinyin syllables) [lit "A	a"; lit "B	b"] false at_at
           (engine_of (table_pinyin syllables) [lit "A	a"; lit "B	b"] false at_at)
           (lit "aa")).
  - apply init_run.
  - by vm_compute.
Defined.

Lemma actree_of_uncompiled wordlist :
  Forall (λ word, word = []) wordlist → kind (actree_of wordlist) = EMPTY.
Proof.
  intros Hall. unfold actree_of.
  assert (foldl step Automaton_new (imap (λ index word, (index, word)) wordlist)
          = Automaton_new) as ->; [|done].
  assert (Forall (λ entry : nat * str, entry.2 = [])
                 (imap (λ index word, (index, word)) wordlist)) as Hps.
  { apply Forall_forall. intros [i w] (i' & w' & [= -> ->] & Hi)%elem_of_lookup_imap.
    rewrite Forall_forall in Hall. apply Hall. by eapply list_elem_of_lookup_2. }
  induction Hps as [|[i w] ps Hw Hps IH]; [done|].
  simpl in *. subst w. exact IH.
Qed.

(** X15: on an engine whose dictionary has no non-empty key (an empty
    synonym file, or blank lines only), [run] raises [AttributeError] for
    every input: no word reached the automaton, so it was never compiled,
    and the scan is not guarded. *)
Theorem run_without_keys_raises
    (py : Pinyin) (file : list str) (flag : bool) (splitter : str)
    (self : EntityCorrect) (text_raw : str) :
  __init__ py file flag splitter = Ok self →
  (∀ key, is_Some (synonym_dict self !! key) → key = []) →
  run text_raw self = (Raise AttributeError, self).
Proof.
  rewrite init_run. intros [= <-] Hempty.
  assert (kind (ac_synonym (engine_of py file flag splitter)) = EMPTY) as Hkind.
  { simpl. apply actree_of_uncompiled, Forall_forall. intros word Hin.
    apply Hempty. simpl. by apply load_dict_keys. }
  unfold run. fold (normalize text_raw).
  erewrite bind_run_Ok; [|reflexivity].
  erewrite (bind_run_Ok _ _ _ (scanned_text (engine_of py file flag splitter) text_raw)
              (engine_of py file flag splitter));
    [|unfold scanned_text; by destruct (use_pinyin _)].
  erewrite bind_run_Ok; [|reflexivity].
  erewrite bind_run_Raise; [done|].
  unfold lift, iter. by rewrite Hkind.
Qed.

(** A synonym file of two blank lines. *)
Lemma run_without_keys_raises_witness :
  run (lit "x") (engine_of (table_pinyin syllables) [newline; lit "  "] false at_at)
  = (Raise AttributeError,
     engine_of (table_pinyin syllables) [newline; lit "  "] false at_at).
Proof.
  apply (run_without_keys_raises (table_pinyin syllables) [newline; lit "  "]
           false at_at).
  - apply init_run.
  - intros key Hkey. apply load_dict_keys in Hkey. vm_compute in Hkey.
    by apply list_elem_of_singleton in Hkey.
Defined.

(** X16: in phonetic mode with an empty delimiter, [run] raises
    [ValueError] as soon as the scan reports an occurrence: the key cannot
    be split at an empty separator. *)
Theorem run_empty_delimiter_raises
    (self : EntityCorrect) (text_raw : str)
    (first : nat * (nat * str)) (others : list (nat * (nat * str))) :
  use_pinyin self = true →
  splitter_symbol self = [] →
  iter (ac_synonym self) (scanned_text self text_raw) = Ok (first :: others) →
  run text_raw self = (Raise ValueError, self).
Proof.
  intros Hflag Hsp Hiter.
  unfold run. fold (normalize text_raw).
  erewrite bind_run_Ok; [|reflexivity].
  erewrite (bind_run_Ok _ _ _ (scanned_text self text_raw) self);
    [|unfold scanned_text; by destruct (use_pinyin self)].
  erewrite bind_run_Ok; [|reflexivity].
  erewrite bind_run_Ok; [|unfold lift; by rewrite Hiter].
  erewrite bind_run_Raise; [done|].
  destruct first as [e [idx key]]. cbn [fmap list_fmap length seq for_each].
  erewrite bind_run_Raise; [done|].
  unfold resolve_step.
  erewrite bind_run_Ok; [|reflexivity].
  erewrite bind_run_Ok; [|reflexivity].
  erewrite bind_run_Raise; [done|].
  rewrite Hflag. unfold get_index. exec. by rewrite Hsp.
Qed.

(** The record 招商银行 <- 招行 in phonetic mode with the delimiter [""],
    and the input 招行. *)
Lemma run_empty_delimiter_raises_witness :
  run zhaohang (engine_of (table_pinyin syllables) zhaohang_file true [])
  = (Raise ValueError, engine_of (table_pinyin syllables) zhaohang_file true []).
Proof.
  apply (run_empty_delimiter_raises
           (engine_of (table_pinyin syllables) zhaohang_file true []) zhaohang
           (7, (1, lit "zhaohang"))%nat []).
  - reflexivity.
  - reflexivity.
  - by vm_compute.
Defined.

(** ** The automaton of an engine: [_build_actree] *)

(** X17: the automaton that the constructor compiles holds exactly the
    non-empty keys of the file, each with the pair of its position in the
    word list (the keys in order of first appearance) and the key itself,
    which is what a scan reports for it; and it is compiled exactly when
    the dictionary has a non-empty key. *)
Theorem engine_automaton_keys
    (py : Pinyin) (file : list str) (flag : bool) (splitter : str) :
  ∃ self,
    __init__ py file flag splitter = Ok self
    ∧ (∀ key value,
         store (ac_synonym self) !! key = Some value
         ↔ key ≠ []
           ∧ ∃ i, value = (i, key)
                  ∧ first_seen (file_keys py splitter flag file) !! i = Some key)
    ∧ (kind (ac_synonym self) = AHOCORASICK
       ↔ ∃ key, key ≠ [] ∧ is_Some (synonym_dict self !! key)).
Proof.
  eexists. split; [apply init_run|]. simpl.
  assert ((load_dict py splitter flag file).2
          = first_seen (file_keys py splitter flag file)) as Hwl.
  { unfold load_dict. rewrite load_dict_words. apply foldl_append_new_first_seen. }
  rewrite Hwl. split.
  - intros key value. split.
    + intros (index & -> & Hidx & Hne)%actree_of_store. eauto.
    + intros (Hne & i & -> & Hi).
      destruct (actree_of_mem (first_seen (file_keys py splitter flag file)) key)
        as [_ [index Hstore]]; [by eapply list_elem_of_lookup_2 | done |].
      rewrite Hstore. do 2 f_equal.
      apply actree_of_store in Hstore as (index' & [= <-] & Hidx & _).
      eapply NoDup_lookup; [apply first_seen_NoDup | done | done].
  - split.
    + intros Hkind.
      destruct (decide (Forall (λ word, word = [])
                               (first_seen (file_keys py splitter flag file))))
        as [Hall|Hex].
      * apply actree_of_uncompiled in Hall. congruence.
      * apply not_Forall_Exists in Hex; [|apply _].
        apply Exists_exists in Hex as (key & Hin & Hne).
        exists key. split; [done|]. apply load_dict_keys. by rewrite Hwl.
    + intros (key & Hne & Hkey). apply load_dict_keys in Hkey.
      rewrite Hwl in Hkey.
      by destruct (actree_of_mem _ key Hkey Hne) as [Hkind _].
Qed.

(** * Running twice *)

(** ** Occurrences and overlaps *)












(** ** Names of non-empty keys are not empty *)








(** ** Texts without whitespace *)





(** ** The keys that occur in the corrected text *)







(** The conditions are sufficient, not necessary: with the one entry
    [ABCBank <- ABC], the second scan of [ABCBank] marks a single report,
    the pop removes it, and the text stays. *)
Example run_twice_one_key_in_name :
  let self := engine_of (table_pinyin syllables) [lit "ABCBank	ABC"] false at_at in
  (run (lit "ABC") self).1
  = Ok (lit "ABCBank", [(lit "ABCBank", lit "ABC")], [lit "ABCBank"])
  ∧ (run (lit "ABCBank") self).1
    = Ok (lit "ABCBank", [(lit "ABCBank", lit "ABCBank")], [lit "ABCBank"]).
Proof. split; by vm_compute. Qed.
